(** * A spell checker's hash table with separate chaining

    Shallow embedding of [src/spellChecker.cpp]: the class [HashMap] (a set of
    string keys stored in an array of chains, with one insertion counter per
    bucket and four selectable hash-code functions), the two utilities and
    the command loop of [main].

    Conventions of the embedding.
    - [int] is the 32-bit two's-complement integer; arithmetic that leaves
      the range wraps around ([Int32.wrap]); [unsigned int] is reduced
      modulo [2^32].  [char] is the signed 8-bit character of the x86
      targets the program is written for.
    - Undefined behaviour that the code can reach is an explicit error of the
      [result] type: reading an array outside its bounds, [%] by zero, and an
      array allocated with a negative length.  A [double] outside the [int]
      range (an infinity or a NaN included) converts to [INT_MIN], the result
      of the conversion instruction of the x86 targets, and the program goes
      on with that value.
    - [table] and [inserts] are the arrays behind the two pointers of the
      class; the null pointer of a fresh object is the empty array (the code
      tests the pointer once, in [resizeTable], where a null table and an
      array of [old_n = 0] buckets both replay nothing).
    - Keys are shorter than [2^31] characters, so the loop counter
      [int i] follows [key.length()] without wrapping. *)

From Stdlib Require Import ZArith Lia List String Ascii.
From Stdlib Require Import Floats.PrimFloat Uint63.
From stdpp Require Import base list strings.

Local Open Scope Z_scope.

(** ** Machine integers *)

Module Int32.

Definition INT_MIN : Z := -2147483648.
Definition INT_MAX : Z := 2147483647.

(** The value of an [int] expression whose mathematical value is [z]. *)
Definition wrap (z : Z) : Z := (z + 2147483648) mod 4294967296 - 2147483648.

(** The value of an [unsigned int] expression whose mathematical value is [z]. *)
Definition uwrap (z : Z) : Z := z mod 4294967296.

Definition in_range (z : Z) : Prop := INT_MIN <= z <= INT_MAX.

Definition in_rangeb (z : Z) : bool := (INT_MIN <=? z) && (z <=? INT_MAX).

(** [abs] of <cstdlib> on an [int]: negation wraps, so [abs INT_MIN] is
    [INT_MIN]. *)
Definition abs (z : Z) : Z := wrap (Z.abs z).

End Int32.

(** ** Results of operations that can fail *)

Inductive error : Set :=
| DivisionByZero       (* [x % 0] *)
| OutOfBounds          (* an array read or written outside its bounds *)
| BadArrayLength.      (* [new T[s]] with [s < 0] *)

Inductive result (A : Type) : Type :=
| Ok (a : A)
| Fail (e : error).

Arguments Ok {A} a.
Arguments Fail {A} e.

Definition bind {A B : Type} (r : result A) (k : A -> result B) : result B :=
  match r with
  | Ok a => k a
  | Fail e => Fail e
  end.

Notation "'let*' x ':=' r 'in' k" := (bind r (fun x => k))
  (at level 10, x name, r at level 100, k at level 200).

(** [arr[i]] for an [int] index. *)
Definition at_index {A : Type} (arr : list A) (i : Z) : result A :=
  if i <? 0 then Fail OutOfBounds
  else match arr !! Z.to_nat i with
       | Some x => Ok x
       | None => Fail OutOfBounds
       end.

(** ** Characters and keys *)

(** [int(key[i])] for a signed 8-bit [char]. *)
Definition char_code (c : ascii) : Z :=
  let v := Z.of_N (N_of_ascii c) in
  if v <? 128 then v else v - 256.

Definition chars (key : string) : list ascii := list_ascii_of_string key.

(** ** Hash codes *)

Inductive HCM : Set := poly | cyclic | simple | custom.

(** [hashCodeSimple]: [sum += key[i] - 96] over the key, in [int]. *)
Definition hashCodeSimple (key : string) : Z :=
  fold_left (fun sum c => Int32.wrap (sum + (char_code c - 96))) (chars key) 0.

(** [hashCodeCyclic]: [sum = (sum << 5) | (sum >> 27); sum += (unsigned int) key[i]]
    in [unsigned int], returned as [int(sum)]. *)
Definition cyclic_step (sum : Z) (c : ascii) : Z :=
  let shifted := Z.lor (Int32.uwrap (Z.shiftl sum 5)) (Z.shiftr sum 27) in
  Int32.uwrap (shifted + Int32.uwrap (char_code c)).

Definition hashCodeCyclic (key : string) : Z :=
  Int32.wrap (fold_left cyclic_step (chars key) 0).

(** Conversion of a [double] to [int], for a [double] expression whose exact
    value is the integer [v].  The operands of the two [pow]-based hash codes
    are integers; whenever [v] is in the [int] range every intermediate value
    is an integer below [2^53] and the [double] arithmetic is exact ([pow]
    returning the exact power when it is representable).  When [v] is
    outside the range the rounded [double] is outside it as well, and the
    conversion gives [INT_MIN]. *)
Definition double_to_int (v : Z) : Z :=
  if Int32.in_rangeb v then v else Int32.INT_MIN.

(** [pow(a, j)] is infinite from the first power that reaches [2^1024]. *)
Definition pow_is_inf (a j : Z) : bool := 2 ^ 1024 <=? Z.abs (a ^ j).

(** One iteration of [hashCodePoly]: [sum += (key[i] - 96) * pow(a, j)].
    A zero coefficient multiplies a finite power to [0.0] and an infinite
    one to NaN, which converts to [INT_MIN] as well. *)
Definition poly_step (sum j : Z) (c : ascii) : Z :=
  let coeff := char_code c - 96 in
  if (coeff =? 0) && pow_is_inf 33 j then Int32.INT_MIN
  else double_to_int (sum + coeff * 33 ^ j).

Fixpoint poly_loop (cs : list ascii) (j sum : Z) : Z :=
  match cs with
  | [] => sum
  | c :: rest => poly_loop rest (j - 1) (poly_step sum j c)
  end.

Definition hashCodePoly (key : string) : Z :=
  poly_loop (chars key) (Z.of_nat (String.length key) - 1) 0.

(** One iteration of [hashCodeCustom]: [sum += pow(key[i] - 92, j)]. *)
Definition custom_step (sum j : Z) (c : ascii) : Z :=
  double_to_int (sum + (char_code c - 92) ^ j).

Fixpoint custom_loop (cs : list ascii) (j sum : Z) : Z :=
  match cs with
  | [] => sum
  | c :: rest => custom_loop rest (j - 1) (custom_step sum j c)
  end.

Definition hashCodeCustom (key : string) : Z :=
  custom_loop (chars key) (Z.of_nat (String.length key)) 0.

(** ** The table *)

Record HashMap : Type := mkHashMap {
  HashCodeMethod : HCM;
  n : Z;
  table : list (list string);
  inserts : list Z
}.

(** [HashMap::HashMap()] *)
Definition empty_map : HashMap :=
  {| HashCodeMethod := simple; n := 0; table := []; inserts := [] |}.

(** [hashCompress]: [(abs((7 * code) + 103) % 109345121) % this->n]; [%] is
    the truncating remainder. *)
Definition hashCompress (h : HashMap) (code : Z) : result Z :=
  let scaled := Int32.wrap (Int32.wrap (7 * code) + 103) in
  let reduced := Z.rem (Int32.abs scaled) 109345121 in
  if n h =? 0 then Fail DivisionByZero else Ok (Z.rem reduced (n h)).

Definition hashCode (m : HCM) (key : string) : result Z :=
  match m with
  | simple => Ok (hashCodeSimple key)
  | poly => Ok (hashCodePoly key)
  | cyclic => Ok (hashCodeCyclic key)
  | custom => Ok (hashCodeCustom key)
  end.

(** [hash]: the code of the selected method, compressed, then [% this->n] once more. *)
Definition hash (h : HashMap) (key : string) : result Z :=
  let* code := hashCode (HashCodeMethod h) key in
  let* idx := hashCompress h code in
  Ok (Z.rem idx (n h)).

(** [find]: the bucket index when [std::find] meets the key in the chain, [-1] otherwise. *)
Definition find (h : HashMap) (key : string) : result Z :=
  let* bucketIdx := hash h key in
  let* bucket := at_index (table h) bucketIdx in
  if bool_decide (key ∈ bucket) then Ok bucketIdx else Ok (-1).

(** [put]: append the key to its chain and count the insertion, unless [find] met it. *)
Definition put (h : HashMap) (key : string) : result HashMap :=
  let* found := find h key in
  if found =? -1 then
    let* bucketIdx := hash h key in
    let* bucket := at_index (table h) bucketIdx in
    let* count := at_index (inserts h) bucketIdx in
    Ok {| HashCodeMethod := HashCodeMethod h;
          n := n h;
          table := <[Z.to_nat bucketIdx := bucket ++ [key]]> (table h);
          inserts := <[Z.to_nat bucketIdx := Int32.wrap (count + 1)]> (inserts h) |}
  else Ok h.

(** [erase]: [if (bucketIdx)] takes the branch for every non-zero result of
    [find]; [list::remove] drops every element equal to the key. *)
Definition erase (h : HashMap) (key : string) : result HashMap :=
  let* bucketIdx := find h key in
  if negb (bucketIdx =? 0) then
    let* bucket := at_index (table h) bucketIdx in
    let* count := at_index (inserts h) bucketIdx in
    Ok {| HashCodeMethod := HashCodeMethod h;
          n := n h;
          table := <[Z.to_nat bucketIdx := filter (λ x, x ≠ key) bucket]> (table h);
          inserts := <[Z.to_nat bucketIdx := Int32.wrap (count - 1)]> (inserts h) |}
  else Ok h.

(** The inner loop of [resizeTable]: [put] every key of one old chain. *)
Fixpoint put_all (curList : list string) (h : HashMap) : result HashMap :=
  match curList with
  | [] => Ok h
  | key :: rest => let* h' := put h key in put_all rest h'
  end.

(** The outer loop of [resizeTable], over the old buckets in index order. *)
Fixpoint replay (oldTable : list (list string)) (h : HashMap) : result HashMap :=
  match oldTable with
  | [] => Ok h
  | curList :: rest => let* h' := put_all curList h in replay rest h'
  end.

(** The table right after the two allocation loops of [resizeTable]. *)
Definition fresh_table (m : HCM) (s : Z) : HashMap :=
  {| HashCodeMethod := m;
     n := s;
     table := replicate (Z.to_nat s) [];
     inserts := replicate (Z.to_nat s) 0 |}.

(** [resizeTable]: no test of [s]; the counters are allocated first, then the
    buckets, then the old buckets [oldTable[0 .. old_n - 1]] are replayed (an
    old array of fewer than [old_n] buckets would be read past its end). *)
Definition resizeTable (h : HashMap) (s : Z) : result HashMap :=
  if s <? 0 then Fail BadArrayLength
  else if Z.of_nat (length (table h)) <? n h then Fail OutOfBounds
  else replay (take (Z.to_nat (n h)) (table h)) (fresh_table (HashCodeMethod h) s).

(** [size] *)
Definition size (h : HashMap) : Z := n h.

(** [setHashCodeMethod]: four independent comparisons; any other name changes nothing. *)
Definition setHashCodeMethod (h : HashMap) (m : string) : HashMap :=
  let with_method (g : HashMap) (c : HCM) : HashMap :=
    {| HashCodeMethod := c; n := n g; table := table g; inserts := inserts g |} in
  let h1 := if String.eqb m "poly" then with_method h poly else h in
  let h2 := if String.eqb m "simple" then with_method h1 simple else h1 in
  let h3 := if String.eqb m "cyclic" then with_method h2 cyclic else h2 in
  if String.eqb m "custom" then with_method h3 custom else h3.

(** ** Statistics *)

(** [std::accumulate(first, last, 0)] over [int]s. *)
Definition accumulate (xs : list Z) : Z :=
  fold_left (fun acc x => Int32.wrap (acc + x)) xs 0.

(** [*std::max_element(first, last)]: the first largest element; on an empty
    range the iterator returned is [last], and reading it leaves the array. *)
Definition max_element (xs : list Z) : result Z :=
  match xs with
  | [] => Fail OutOfBounds
  | x :: rest => Ok (fold_left (fun best y => if best <? y then y else best) rest x)
  end.

(** [double(i)] for an [int] [i]. *)
Definition int_to_double (i : Z) : float :=
  match i with
  | Z0 => PrimFloat.zero
  | Zpos _ => PrimFloat.of_uint63 (Uint63.of_Z i)
  | Zneg _ => PrimFloat.opp (PrimFloat.of_uint63 (Uint63.of_Z (- i)))
  end.

(** The five values [printStats] prints, in its order. *)
Record Stats : Type := mkStats {
  stat_size : Z;
  stat_inserts : Z;
  stat_load_factor : float;
  stat_collisions : Z;
  stat_max_bucket : Z
}.

(** [printStats] reads [inserts[0 .. n - 1]]; with [n = 0] the largest
    counter is read from an empty range. *)
Definition printStats (h : HashMap) : result Stats :=
  if Z.of_nat (length (inserts h)) <? n h then Fail OutOfBounds
  else
    let counts := take (Z.to_nat (n h)) (inserts h) in
    let sumIns := accumulate counts in
    let collisions := map (fun c => Z.max (Int32.wrap (c - 1)) 0) counts in
    let sumColl := accumulate collisions in
    let* largest := max_element counts in
    Ok {| stat_size := n h;
          stat_inserts := sumIns;
          stat_load_factor := PrimFloat.div (int_to_double sumIns) (int_to_double (n h));
          stat_collisions := sumColl;
          stat_max_bucket := largest |}.

(** ** The [find] command of [main] *)

Inductive find_output : Type :=
| found_at (bucketIdx : Z)   (* prints "found " and the index *)
| not_found.                 (* prints "not found" *)

(** The branch prints from [bucketIdx >= 0]; the second component is the
    table [H] of [main] after the command. *)
Definition find_command (h : HashMap) (token : string) : result (find_output * HashMap) :=
  let* bucketIdx := find h token in
  Ok (if 0 <=? bucketIdx then found_at bucketIdx else not_found, h).

(** ** What the specification says, for comparison *)

(** "sum over its characters of (char_code - 96)", as a mathematical integer. *)
Definition code_sum (key : string) : Z :=
  foldr (fun c acc => (char_code c - 96) + acc) 0 (chars key).

(** "index = ((7 * code + 103) mod 109345121) mod bucket_count", with the
    absolute value taken before the first modulo, over the integers. *)
Definition compress_spec (code bucket_count : Z) : Z :=
  (Z.abs (7 * code + 103) mod 109345121) mod bucket_count.

(** "sum_i coeff_i * 33^(L-1-i)" with coefficients [char_code - 96], most
    significant character first, as a mathematical integer. *)
Fixpoint poly_terms (cs : list ascii) : Z :=
  match cs with
  | [] => 0
  | c :: rest => (char_code c - 96) * 33 ^ Z.of_nat (length rest) + poly_terms rest
  end.

Definition poly_value (key : string) : Z := poly_terms (chars key).

(** The sums the loop of [hashCodePoly] runs through, over the integers:
    one per character, each the sum before it plus the character's term. *)
Fixpoint poly_sums (cs : list ascii) (sum : Z) : list Z :=
  match cs with
  | [] => []
  | c :: rest =>
      let sum' := sum + (char_code c - 96) * 33 ^ Z.of_nat (length rest) in
      sum' :: poly_sums rest sum'
  end.

Definition poly_running_sums (key : string) : list Z := poly_sums (chars key) 0.

(** A lowercase letter, ['a'] to ['z']. *)
Definition lowercase_letter (c : ascii) : Prop := 97 <= char_code c <= 122.

(** The key of 9586981 characters of code [-128] (the byte [0x80]). *)
Definition bytes_0x80 : string :=
  string_of_list_ascii (replicate (Z.to_nat 9586981) (ascii_of_nat 128)).

(** The table after the commands "resize 5", "put cat", "put dog". *)
Definition cat_dog : HashMap :=
  {| HashCodeMethod := simple;
     n := 5;
     table := [["dog"]; ["cat"]; []; []; []];
     inserts := [1; 1; 0; 0; 0] |}.

(** "sum of insert_counts", over the integers. *)
Definition sum_counts (counts : list Z) : Z := foldr Z.add 0 counts.

(** "sum over buckets of max(insert_counts[i] - 1, 0)", over the integers. *)
Definition collisions_total (counts : list Z) : Z :=
  foldr Z.add 0 (map (fun c => Z.max (c - 1) 0) counts).

(** "maximum insert_counts value". *)
Definition is_maximum (m : Z) (counts : list Z) : Prop :=
  m ∈ counts /\ forall c, c ∈ counts -> c <= m.

(** The table after "resize 5" and "put" of a, b, c, d, e, g and l: bucket 2
    receives three insertions, every other bucket one. *)
Definition stats_sample : HashMap :=
  {| HashCodeMethod := simple;
     n := 5;
     table := [["a"]; ["d"]; ["b"; "g"; "l"]; ["e"]; ["c"]];
     inserts := [1; 1; 3; 1; 1] |}.

(** The table after the commands "resize 5", "put dog", "hash_code poly":
    the key sits in the bucket the Simple code sent it to. *)
Definition dog_then_poly : HashMap :=
  {| HashCodeMethod := poly;
     n := 5;
     table := [["dog"]; []; []; []; []];
     inserts := [1; 0; 0; 0; 0] |}.

(** The same table after one more "put dog". *)
Definition dog_twice : HashMap :=
  {| HashCodeMethod := poly;
     n := 5;
     table := [["dog"]; []; []; []; ["dog"]];
     inserts := [1; 0; 0; 0; 1] |}.

(** ** Invariants of the data model *)

(** The two arrays have [n] cells each. *)
Definition wf (h : HashMap) : Prop :=
  Z.of_nat (length (table h)) = n h /\ Z.of_nat (length (inserts h)) = n h.

(** [key] is in the chain of bucket [i]. *)
Definition stored_in (h : HashMap) (i : nat) (key : string) : Prop :=
  exists bucket, table h !! i = Some bucket /\ key ∈ bucket.

(** [key] is in some chain. *)
Definition stored (h : HashMap) (key : string) : Prop :=
  exists i, stored_in h i key.

(** Every stored key is in the chain of the bucket it hashes to under the
    current method and size, and no chain repeats a key. *)
Definition placed (h : HashMap) : Prop :=
  forall i bucket,
    table h !! i = Some bucket ->
    NoDup bucket /\ forall key, key ∈ bucket -> hash h key = Ok (Z.of_nat i).

(** Each counter counts the keys of its chain. *)
Definition counted (h : HashMap) : Prop :=
  forall i bucket,
    table h !! i = Some bucket ->
    inserts h !! i = Some (Int32.wrap (Z.of_nat (length bucket))).

(** The table [put] leaves when the key was not met in [bucket], the chain
    of bucket [i]. *)
Definition appended (h : HashMap) (i : Z) (bucket : list string) (count : Z)
    (key : string) : HashMap :=
  {| HashCodeMethod := HashCodeMethod h;
     n := n h;
     table := <[Z.to_nat i := bucket ++ [key]]> (table h);
     inserts := <[Z.to_nat i := Int32.wrap (count + 1)]> (inserts h) |}.

(** [hash] computes a valid bucket index for [key]. *)
Definition hash_valid (h : HashMap) (key : string) : Prop :=
  exists i, hash h key = Ok i /\ 0 <= i < n h.

(** What the replay of [resizeTable] maintains. *)
Definition rehashed (h : HashMap) : Prop := wf h /\ placed h /\ counted h.

(** The tables the commands of [main] can produce from the constructor's. *)
Inductive reachable : HashMap -> Prop :=
| reach_new : reachable empty_map
| reach_resize h s h' : reachable h -> resizeTable h s = Ok h' -> reachable h'
| reach_put h key h' : reachable h -> put h key = Ok h' -> reachable h'
| reach_erase h key h' : reachable h -> erase h key = Ok h' -> reachable h'
| reach_method h m : reachable h -> reachable (setHashCodeMethod h m).

(** ** The rest of the class *)

(** The table [erase] leaves when it met the key in [bucket], the chain of
    bucket [i]. *)
Definition erased (h : HashMap) (i : Z) (bucket : list string) (count : Z)
    (key : string) : HashMap :=
  {| HashCodeMethod := HashCodeMethod h;
     n := n h;
     table := <[Z.to_nat i := filter (λ x, x ≠ key) bucket]> (table h);
     inserts := <[Z.to_nat i := Int32.wrap (count - 1)]> (inserts h) |}.

(** No chain repeats a key. *)
Definition chains_nodup (h : HashMap) : Prop :=
  forall i bucket, table h !! i = Some bucket -> NoDup bucket.

(** [deleteTable(t, s)]: a null [t] (here [None]) stands for [this->table]
    and [s == 0] for [this->n]; the loop then reads [t[0 .. s - 1]] to delete
    each chain.  Only these reads are kept; the deallocation itself is not
    part of the embedding. *)
Definition deleteTable (this : HashMap) (t : option (list (list string))) (s : Z)
    : result unit :=
  let t' := match t with Some old => old | None => table this end in
  let s' := if s =? 0 then n this else s in
  if Z.of_nat (length t') <? s' then Fail OutOfBounds else Ok tt.

(** [HashMap::~HashMap()] *)
Definition destructor (h : HashMap) : result unit := deleteTable h None 0.

(** The whole of [resizeTable], with the [deleteTable(oldTable, old_n)] that
    ends it when [oldTable] is not null.  [allocated] tells whether the
    [table] pointer of [h] is non-null, that is, whether a [resizeTable] ran
    on the object before; the call is made with the new [n] and [table]
    already in place. *)
Definition resizeTable_deleting (allocated : bool) (h : HashMap) (s : Z) : result HashMap :=
  let* h' := resizeTable h s in
  if allocated then
    let* _ := deleteTable h' (Some (table h)) (n h) in Ok h'
  else Ok h'.

(** The "rehash" command of [main]: [H.resizeTable(H.size())]. *)
Definition rehash (h : HashMap) : result HashMap := resizeTable h (size h).

(** What every reachable table keeps: the two arrays have [n >= 0] cells,
    each counter counts the keys of its chain, and no chain repeats a key. *)
Definition consistent (h : HashMap) : Prop := wf h /\ counted h /\ chains_nodup h.

(** ** The utilities and [load] *)

(** [std::tolower] on one [char], in the "C" locale: the capital letters
    ['A'] to ['Z'] move to the small ones and every other character is
    handed back.  (A [char] below [-1] is outside the domain the standard
    gives [tolower]; the C-locale tables hand it back as well.) *)
Definition to_lower (c : ascii) : ascii :=
  let v := char_code c in
  if (65 <=? v) && (v <=? 90) then ascii_of_N (N_of_ascii c + 32) else c.

(** [lowercase]: [s[i] = std::tolower(s[i])] for every index. *)
Fixpoint lowercase (s : string) : string :=
  match s with
  | EmptyString => EmptyString
  | String c rest => String (to_lower c) (lowercase rest)
  end.

(** A character of the set [" \n\r\t"]. *)
Definition blank (c : ascii) : bool :=
  let v := char_code c in
  (v =? 32) || (v =? 10) || (v =? 13) || (v =? 9).

(** [find_last_not_of(" \n\r\t")]: the largest index of a character outside
    the set, [None] for [npos]; [i] is the index of the head of [cs] and
    [last] the answer so far. *)
Fixpoint find_last_not_of_blank (cs : list ascii) (i : nat) (last : option nat)
    : option nat :=
  match cs with
  | [] => last
  | c :: rest =>
      find_last_not_of_blank rest (S i) (if blank c then last else Some i)
  end.

(** [s.erase(s.find_last_not_of(" \n\r\t") + 1)]: everything after the last
    character outside the set goes; [npos + 1] wraps to 0 and empties [s]. *)
Definition rtrim (s : string) : string :=
  let pos := match find_last_not_of_blank (chars s) 0 None with
             | Some i => S i
             | None => 0%nat
             end in
  string_of_list_ascii (take pos (chars s)).

(** What [load] does to a line before [put]: lower case, then trim. *)
Definition normalize (line : string) : string := rtrim (lowercase line).

(** The chain [put] leaves in the bucket [key] hashes to: the key goes to
    the end unless [std::find] meets it in the chain. *)
Definition add_key (chain : list string) (key : string) : list string :=
  if bool_decide (key ∈ chain) then chain else chain ++ [key].

(** Whether [hash] sends [key] to bucket [i]. *)
Definition hashes_to (h : HashMap) (i : nat) (key : string) : bool :=
  match hash h key with
  | Ok j => j =? Z.of_nat i
  | Fail _ => false
  end.

(** [load], on the lines [getline] reads from the file (none when the file
    could not be opened). *)
Fixpoint load (lines : list string) (h : HashMap) : result HashMap :=
  match lines with
  | [] => Ok h
  | line :: rest => let* h' := put h (normalize line) in load rest h'
  end.

(** The sum [hashCodeCustom] accumulates, over the integers: the character
    at distance [j] from the end of the key (the last one at distance 1)
    contributes [(char_code - 92) ^ j]. *)
Fixpoint custom_terms (cs : list ascii) : Z :=
  match cs with
  | [] => 0
  | c :: rest => (char_code c - 92) ^ Z.of_nat (length cs) + custom_terms rest
  end.

Definition custom_value (key : string) : Z := custom_terms (chars key).

(** The [unsigned int] accumulator of [hashCodeCyclic] after the whole key. *)
Definition cyclic_state (key : string) : Z := fold_left cyclic_step (chars key) 0.

(** ** [print] and the command loop of [main] *)

(** What is written to [cout], one item per [<<]. *)
Inductive output : Type :=
| text (s : string)
| number (i : Z)
| real (d : float)
| endl.

(** The string of the one character ['\t']. *)
Definition tab : string := String (ascii_of_nat 9) EmptyString.

(** The line [print] writes for bucket [i]. *)
Definition print_bucket (i : nat) (bucket : list string) : list output :=
  number (Z.of_nat i) :: text (":" ++ tab)
  :: flat_map (fun key => [text key; text tab]) bucket ++ [endl].

(** [print] reads [table[0 .. n - 1]]. *)
Definition print (h : HashMap) : result (list output) :=
  if Z.of_nat (length (table h)) <? n h then Fail OutOfBounds
  else Ok (concat (imap print_bucket (take (Z.to_nat (n h)) (table h)))).

(** The five lines of [printStats]. *)
Definition stats_output (st : Stats) : list output :=
  [text ("size:" ++ tab ++ tab ++ tab); number (stat_size st); endl;
   text ("inserts:" ++ tab ++ tab); number (stat_inserts st); endl;
   text ("load factor:" ++ tab); real (stat_load_factor st); endl;
   text ("collisions:" ++ tab ++ tab); number (stat_collisions st); endl;
   text ("max. bucket:" ++ tab); number (stat_max_bucket st); endl].

(** What the "find" command writes after the token. *)
Definition find_text (o : find_output) : list output :=
  match o with
  | found_at bucketIdx => [text "found "; number bucketIdx; endl]
  | not_found => [text "not found"; endl]
  end.

(** The running program: the variable [H] of [main], whether [H.table] is
    not null (a [resizeTable] ran), and what went to [cout] so far. *)
Record process : Type := mkProcess {
  H_map : HashMap;
  H_allocated : bool;
  cout : list output
}.

Definition say (p : process) (o : list output) : process :=
  {| H_map := H_map p; H_allocated := H_allocated p; cout := cout p ++ o |}.

Definition with_map (p : process) (h : HashMap) : process :=
  {| H_map := h; H_allocated := H_allocated p; cout := cout p |}.

(** [HashMap H = HashMap();] before anything was written. *)
Definition started : process :=
  {| H_map := empty_map; H_allocated := false; cout := [] |}.

(** [getline(lineSS, token, ' ')] until it fails: the pieces of the line
    between single spaces; [token] holds the characters of the piece being
    read.  At the end of the line a piece without characters is no token,
    since [getline] fails when it extracts nothing. *)
Fixpoint tokens_of (cs : list ascii) (token : list ascii) : list string :=
  match cs with
  | [] => match token with
          | [] => []
          | _ => [string_of_list_ascii token]
          end
  | c :: rest =>
      if Ascii.eqb c " " then string_of_list_ascii token :: tokens_of rest []
      else tokens_of rest (token ++ [c])
  end.

Definition split_line (line : string) : list string := tokens_of (chars line) [].

(** The tokens joined again, one space between neighbours. *)
Fixpoint joined (tokens : list string) : list ascii :=
  match tokens with
  | [] => []
  | [token] => chars token
  | token :: rest => chars token ++ " "%char :: joined rest
  end.

(** The names [main] compares the command with. *)
Definition command_names : list string :=
  ["resize"; "load"; "put"; "find"; "erase"; "check"; "hash_code";
   "print"; "stats"; "rehash"].

(** The words a "check" line reports on a table [h]: the normalised tokens
    that are in no chain. *)
Definition misspelled (h : HashMap) (words : list string) : list string :=
  filter (λ w, w ∉ concat (table h)) (normalize <$> words).

Section Main.

(** [atoi] of the C library, and the files of the current directory: the
    lines of the file of a given name, [None] when it cannot be opened. *)
Variable atoi : string -> result Z.
Variable files : string -> option (list string).

(** [loadFile]: what it writes, and the lines [getline] will read from the
    stream (none from a stream that failed to open). *)
Definition loadFile (fname : string) : list output * list string :=
  match files fname with
  | Some lines => ([], lines)
  | None => ([text "Cannot open file "; text fname; endl], [])
  end.

(** The body of the token loop for a token after the command; the token is
    trimmed already.  The command names are distinct, so at most one of the
    [if] statements of the source runs. *)
Definition command_step (command token : string) (p : process) : result process :=
  if String.eqb command "resize" then
    let* s := atoi token in
    let* h := resizeTable_deleting (H_allocated p) (H_map p) s in
    Ok {| H_map := h; H_allocated := true; cout := cout p |}
  else if String.eqb command "load" then
    let '(o, lines) := loadFile token in
    let* h := load lines (H_map p) in
    Ok (with_map (say p o) h)
  else if String.eqb command "put" then
    let* h := put (H_map p) (lowercase token) in
    Ok (with_map p h)
  else if String.eqb command "find" then
    let* answer := find_command (H_map p) (lowercase token) in
    Ok (with_map (say p (text (lowercase token) :: text ": " :: find_text answer.1))
          answer.2)
  else if String.eqb command "erase" then
    let* h := erase (H_map p) (lowercase token) in
    Ok (with_map p h)
  else if String.eqb command "check" then
    let* bucketIdx := find (H_map p) (lowercase token) in
    Ok (if bucketIdx <? 0 then say p [text tab; text (lowercase token)] else p)
  else if String.eqb command "hash_code" then
    Ok (with_map p (setHashCodeMethod (H_map p) (lowercase token)))
  else Ok p.

(** The token loop: every token is trimmed; while [command] is empty the
    token, in lower case, becomes the command. *)
Fixpoint token_loop (tokens : list string) (command : string) (p : process)
    : result (string * process) :=
  match tokens with
  | [] => Ok (command, p)
  | token :: rest =>
      let token := rtrim token in
      if String.eqb command "" then
        let command := lowercase token in
        token_loop rest command
          (if String.eqb command "check" then say p [text "misspelled:"] else p)
      else
        let* p' := command_step command token p in
        token_loop rest command p'
  end.

(** What follows the token loop. *)
Definition after_tokens (command : string) (p : process) : result process :=
  if String.eqb command "print" then
    let* o := print (H_map p) in Ok (say p o)
  else if String.eqb command "stats" then
    let* st := printStats (H_map p) in Ok (say p (stats_output st))
  else if String.eqb command "rehash" then
    let* h := resizeTable_deleting (H_allocated p) (H_map p) (size (H_map p)) in
    Ok {| H_map := h; H_allocated := true; cout := cout p |}
  else if String.eqb command "check" then Ok (say p [endl])
  else Ok p.

(** One turn of the loop over the lines of the input file. *)
Definition run_line (line : string) (p : process) : result process :=
  let* read := token_loop (split_line line) "" (say p [text line; endl]) in
  after_tokens read.1 read.2.

Fixpoint run_lines (lines : list string) (p : process) : result process :=
  match lines with
  | [] => Ok p
  | line :: rest => let* p' := run_line line p in run_lines rest p'
  end.

(** [main] up to [return EXIT_SUCCESS], where [H] is destroyed; the pause
    before it is not part of the embedding. *)
Definition main : result (list output) :=
  let '(o, lines) := loadFile "input.txt" in
  let* p := run_lines lines (say started o) in
  let* _ := destructor (H_map p) in
  Ok (cout p).

End Main.

(** * Properties *)

(** ** Machine arithmetic *)

Ltac range_lia :=
  unfold Int32.in_range, Int32.INT_MIN, Int32.INT_MAX in *; lia.

Section Int32_facts.

Lemma wrap_range (z : Z) : Int32.in_range (Int32.wrap z).
Proof.
  unfold Int32.in_range, Int32.wrap, Int32.INT_MIN, Int32.INT_MAX.
  pose proof (Z.mod_pos_bound (z + 2147483648) 4294967296). lia.
Qed.

Lemma wrap_small (z : Z) : Int32.in_range z -> Int32.wrap z = z.
Proof.
  unfold Int32.in_range, Int32.wrap, Int32.INT_MIN, Int32.INT_MAX. intros Hz.
  rewrite Z.mod_small; lia.
Qed.

Lemma wrap_add_l (a b : Z) : Int32.wrap (Int32.wrap a + b) = Int32.wrap (a + b).
Proof.
  unfold Int32.wrap.
  replace ((a + 2147483648) mod 4294967296 - 2147483648 + b + 2147483648)
    with ((a + 2147483648) mod 4294967296 + b) by lia.
  rewrite Zplus_mod_idemp_l. f_equal. f_equal. lia.
Qed.

Lemma in_rangeb_spec (z : Z) : Int32.in_rangeb z = true <-> Int32.in_range z.
Proof. unfold Int32.in_rangeb, Int32.in_range. rewrite andb_true_iff. lia. Qed.

Lemma abs_nonneg (z : Z) :
  Int32.in_range z -> z <> Int32.INT_MIN -> Int32.abs z = Z.abs z /\ 0 <= Int32.abs z.
Proof.
  unfold Int32.in_range, Int32.INT_MIN, Int32.INT_MAX, Int32.abs. intros Hz Hmin.
  rewrite wrap_small; [lia |].
  range_lia.
Qed.

End Int32_facts.

(** ** The hash codes *)

Section Hash_codes.

Lemma char_code_range (c : ascii) : -128 <= char_code c <= 127.
Proof.
  unfold char_code. pose proof (N_ascii_bounded c) as Hb.
  destruct (Z.ltb_spec (Z.of_N (N_of_ascii c)) 128); lia.
Qed.

Lemma simple_loop_sum (cs : list ascii) (acc : Z) :
  Int32.in_range acc ->
  fold_left (fun sum c => Int32.wrap (sum + (char_code c - 96))) cs acc
  = Int32.wrap (acc + foldr (fun c a => (char_code c - 96) + a) 0 cs).
Proof.
  revert acc. induction cs as [| c cs IH]; intros acc Hacc; simpl.
  - rewrite Z.add_0_r. symmetry. by apply wrap_small.
  - rewrite IH by apply wrap_range. rewrite wrap_add_l. f_equal. lia.
Qed.

Lemma code_sum_bounds (cs : list ascii) :
  -224 * Z.of_nat (length cs)
  <= foldr (fun c a => (char_code c - 96) + a) 0 cs
  <= 31 * Z.of_nat (length cs).
Proof.
  induction cs as [| c cs IH]; simpl length; simpl foldr; [lia |].
  pose proof (char_code_range c). lia.
Qed.

Lemma length_chars (key : string) : length (chars key) = String.length key.
Proof.
  unfold chars. induction key as [| c key IH]; simpl; [done | by rewrite IH].
Qed.

Lemma hashCodeSimple_wrap (key : string) : hashCodeSimple key = Int32.wrap (code_sum key).
Proof.
  unfold hashCodeSimple, code_sum. rewrite simple_loop_sum; [done |].
  range_lia.
Qed.

Lemma hashCodeSimple_exact (key : string) :
  Z.of_nat (String.length key) <= 9586980 ->
  hashCodeSimple key = code_sum key
  /\ -224 * Z.of_nat (String.length key) <= code_sum key <= 31 * Z.of_nat (String.length key).
Proof.
  intros Hlen. pose proof (code_sum_bounds (chars key)) as Hb. rewrite length_chars in Hb.
  split; [| exact Hb]. rewrite hashCodeSimple_wrap. apply wrap_small.
  unfold code_sum, Int32.in_range, Int32.INT_MIN, Int32.INT_MAX. lia.
Qed.

Lemma code_sum_replicate (k : nat) (c : ascii) :
  code_sum (string_of_list_ascii (replicate k c)) = Z.of_nat k * (char_code c - 96).
Proof.
  unfold code_sum, chars. rewrite list_ascii_of_string_of_list_ascii.
  induction k as [| k IH]; [done |].
  cbn [replicate foldr]. rewrite IH. lia.
Qed.

End Hash_codes.

(** C7. The Simple hash code of every key is the sum of [char_code - 96]
    over its characters, as the 32-bit [int] the code accumulates it in: it
    is that sum reduced to the [int] range, and the sum itself for every key
    of at most 9586980 characters (beyond which the sum can leave the
    range).  The key "cat" has code 24 and the empty key has code 0. *)
Theorem hashCodeSimple_sum (key : string) :
  hashCodeSimple key = Int32.wrap (code_sum key)
  /\ (Z.of_nat (String.length key) <= 9586980 -> hashCodeSimple key = code_sum key)
  /\ hashCodeSimple "cat" = 24
  /\ hashCodeSimple "" = 0.
Proof.
  split; [apply hashCodeSimple_wrap |]. split; [| split; reflexivity].
  intros Hlen. by apply hashCodeSimple_exact.
Qed.

Lemma hashCodeSimple_sum_witness :
  Z.of_nat (String.length "cat") <= 9586980 /\ hashCodeSimple "cat" = code_sum "cat".
Proof.
  split; [simpl; lia |].
  apply (proj1 (proj2 (hashCodeSimple_sum "cat"))). simpl. lia.
Defined.

(** C7, as stated, fails for a key long enough: the 9586981 characters of
    code [-128] sum to [-2147483744], below [INT_MIN], and the [int] the code
    accumulates wraps around to [2147483552]. *)
Lemma hashCodeSimple_counterexample :
  code_sum bytes_0x80 = -2147483744
  /\ hashCodeSimple bytes_0x80 = 2147483552
  /\ hashCodeSimple bytes_0x80 <> code_sum bytes_0x80.
Proof.
  assert (Hsum : code_sum bytes_0x80 = -2147483744).
  { unfold bytes_0x80. rewrite code_sum_replicate, Z2Nat.id by lia. reflexivity. }
  rewrite hashCodeSimple_wrap, Hsum. vm_compute. repeat split. discriminate.
Qed.

Section Compression.

Lemma rem_nonneg (a b : Z) : 0 <= a -> 0 < b -> Z.rem a b = a mod b /\ 0 <= a mod b < b.
Proof.
  intros Ha Hb. split; [apply Z.rem_mod_nonneg; lia | apply Z.mod_pos_bound; lia].
Qed.

Lemma scaled_wrap (code : Z) :
  Int32.wrap (Int32.wrap (7 * code) + 103) = Int32.wrap (7 * code + 103).
Proof. apply wrap_add_l. Qed.

Lemma hashCompress_value (h : HashMap) (code : Z) :
  0 < n h ->
  Int32.wrap (7 * code + 103) <> Int32.INT_MIN ->
  hashCompress h code
  = Ok ((Z.abs (Int32.wrap (7 * code + 103)) mod 109345121) mod n h).
Proof.
  intros Hn Hmin. unfold hashCompress. rewrite scaled_wrap.
  destruct (Z.eqb_spec (n h) 0) as [Hz | _]; [lia |].
  destruct (abs_nonneg (Int32.wrap (7 * code + 103)) (wrap_range _) Hmin) as [-> Habs].
  destruct (rem_nonneg (Z.abs (Int32.wrap (7 * code + 103))) 109345121) as [-> Hr];
    [lia | lia |].
  destruct (rem_nonneg (Z.abs (Int32.wrap (7 * code + 103)) mod 109345121) (n h)) as [-> _];
    [lia | lia | done].
Qed.

(** Every code but the one that scales to [INT_MIN] gives a valid index. *)
Lemma hash_valid_code (h : HashMap) (key : string) (code : Z) :
  0 < n h -> hashCode (HashCodeMethod h) key = Ok code ->
  Int32.wrap (7 * code + 103) <> Int32.INT_MIN ->
  hash_valid h key.
Proof.
  intros Hn Hcode Hmin.
  assert (Hidx : 0 <= (Z.abs (Int32.wrap (7 * code + 103)) mod 109345121) mod n h < n h)
    by (apply Z.mod_pos_bound; lia).
  eexists. split; [| exact Hidx].
  unfold hash. rewrite Hcode. cbn [bind]. rewrite hashCompress_value by done. cbn [bind].
  f_equal. rewrite Z.rem_mod_nonneg by lia. by apply Z.mod_small.
Qed.

(** Under the Simple method every key of at most 1369568 characters has a
    valid bucket index. *)
Lemma hash_valid_simple (h : HashMap) (key : string) :
  HashCodeMethod h = simple -> 0 < n h ->
  Z.of_nat (String.length key) <= 1369568 ->
  hash_valid h key.
Proof.
  intros Hm Hn Hlen. apply (hash_valid_code h key (hashCodeSimple key)); [done | by rewrite Hm |].
  destruct (hashCodeSimple_exact key) as [-> Hb]; [lia |].
  rewrite wrap_small; unfold Int32.in_range, Int32.INT_MIN, Int32.INT_MAX; lia.
Qed.

End Compression.

(** C6 (as amended).  For every hash code and every table with
    [bucket_count > 0], the compression evaluates [7 * code + 103] in 32-bit
    wrap-around arithmetic; whenever that value is not [INT_MIN] the result
    is [(|value| mod 109345121) mod bucket_count], it lies in
    [[0, bucket_count)], and it is the bucket index [hash] returns for every
    key with that code.  When [7 * code + 103] fits the [int] range the
    result is the specification's [(|7 * code + 103| mod 109345121) mod
    bucket_count]. *)
Theorem hashCompress_index (h : HashMap) (code : Z) :
  0 < n h ->
  Int32.wrap (7 * code + 103) <> Int32.INT_MIN ->
  exists idx,
    hashCompress h code = Ok idx
    /\ 0 <= idx < n h
    /\ idx = (Z.abs (Int32.wrap (7 * code + 103)) mod 109345121) mod n h
    /\ (Int32.in_range (7 * code + 103) -> idx = compress_spec code (n h))
    /\ (forall key, hashCode (HashCodeMethod h) key = Ok code -> hash h key = Ok idx).
Proof.
  intros Hn Hmin. eexists. split; [by apply hashCompress_value |].
  assert (Hidx : 0 <= (Z.abs (Int32.wrap (7 * code + 103)) mod 109345121) mod n h < n h)
    by (apply Z.mod_pos_bound; lia).
  split; [exact Hidx |]. split; [done |]. split.
  - intros Hfit. unfold compress_spec. by rewrite (wrap_small _ Hfit).
  - intros key Hcode. unfold hash. rewrite Hcode. simpl.
    rewrite hashCompress_value by done. simpl. f_equal.
    rewrite Z.rem_mod_nonneg by lia. apply Z.mod_small. exact Hidx.
Qed.

Lemma hashCompress_index_witness :
  exists idx,
    hashCompress (fresh_table simple 7) 24 = Ok idx
    /\ 0 <= idx < 7
    /\ idx = compress_spec 24 7.
Proof.
  destruct (hashCompress_index (fresh_table simple 7) 24) as (idx & H1 & H2 & _ & H4 & _).
  - reflexivity.
  - vm_compute. discriminate.
  - exists idx. split; [exact H1 |]. split; [exact H2 |]. apply H4. vm_compute. split; discriminate.
Defined.

(** C6, as stated, fails.  The word "banana" has the Cyclic code
    [-901213663], for which [7 * code + 103] leaves the [int] range: with 7
    buckets the code compresses the wrapped value to 3, where the
    specification's formula over the integers gives 5.  And the 7-letter
    key "dsxjswf" has the Cyclic code [-306783393], for which
    [7 * code + 103] is [INT_MIN], whose [abs] stays negative: with 2
    buckets [hash] returns [-1]. *)
Lemma hashCompress_counterexample :
  (hashCodeCyclic "banana" = -901213663
   /\ hashCompress (fresh_table cyclic 7) (-901213663) = Ok 3
   /\ hash (fresh_table cyclic 7) "banana" = Ok 3
   /\ compress_spec (-901213663) 7 = 5)
  /\ hashCodeCyclic "dsxjswf" = -306783393
  /\ hashCompress (fresh_table cyclic 2) (-306783393) = Ok (-1)
  /\ hash (fresh_table cyclic 2) "dsxjswf" = Ok (-1).
Proof. vm_compute. repeat split. Qed.

(** ** Reading the arrays *)

Section Arrays.

Context {A : Type}.

Lemma at_index_Ok (arr : list A) (i : Z) (x : A) :
  at_index arr i = Ok x <-> 0 <= i /\ arr !! Z.to_nat i = Some x.
Proof.
  unfold at_index. destruct (Z.ltb_spec i 0) as [Hneg | Hpos].
  - split; [discriminate | lia].
  - destruct (arr !! Z.to_nat i) as [y |]; split.
    + intros [= ->]. done.
    + intros [_ [= ->]]. done.
    + discriminate.
    + intros [_ [=]].
Qed.

Lemma at_index_negative (arr : list A) (i : Z) : i < 0 -> at_index arr i = Fail OutOfBounds.
Proof. unfold at_index. intros Hi. destruct (Z.ltb_spec i 0); [done | lia]. Qed.

Lemma at_index_in_bounds (arr : list A) (i : Z) :
  0 <= i < Z.of_nat (length arr) -> exists x, at_index arr i = Ok x.
Proof.
  intros Hi. destruct (lookup_lt_is_Some_2 arr (Z.to_nat i)) as [x Hx]; [lia |].
  exists x. apply at_index_Ok. split; [lia | done].
Qed.

End Arrays.

(** ** [hash], [find] and [put] *)

Section Lookup.

Lemma hash_same_shape (h g : HashMap) (key : string) :
  HashCodeMethod g = HashCodeMethod h -> n g = n h -> hash g key = hash h key.
Proof. unfold hash, hashCompress. by intros -> ->. Qed.

Lemma hash_Ok_size (h : HashMap) (key : string) (i : Z) : hash h key = Ok i -> n h <> 0.
Proof.
  unfold hash, hashCompress. destruct (hashCode _ _) as [code |]; [simpl | discriminate].
  destruct (Z.eqb_spec (n h) 0); [discriminate | done].
Qed.

Lemma find_in_bucket (h : HashMap) (key : string) (i : Z) (bucket : list string) :
  hash h key = Ok i -> 0 <= i -> table h !! Z.to_nat i = Some bucket ->
  find h key = Ok (if bool_decide (key ∈ bucket) then i else -1).
Proof.
  intros Hh Hi Hb. unfold find. rewrite Hh. simpl.
  rewrite (proj2 (at_index_Ok (table h) i bucket)) by done. simpl.
  by destruct (bool_decide (key ∈ bucket)).
Qed.

Lemma find_Ok_inv (h : HashMap) (key : string) (v : Z) :
  find h key = Ok v ->
  exists i bucket,
    hash h key = Ok i /\ 0 <= i /\ table h !! Z.to_nat i = Some bucket
    /\ ((key ∈ bucket /\ v = i) \/ ((key ∉ bucket) /\ v = -1)).
Proof.
  unfold find. destruct (hash h key) as [i |] eqn:Hh; [simpl | discriminate].
  destruct (at_index (table h) i) as [bucket |] eqn:Hb; [simpl | discriminate].
  apply at_index_Ok in Hb as [Hi Hb]. intros Hv. exists i, bucket.
  repeat split; try done.
  destruct (bool_decide_reflect (key ∈ bucket)); injection Hv as <-; [left | right]; done.
Qed.

Lemma put_in_bucket (h : HashMap) (key : string) (i : Z) (bucket : list string) (count : Z) :
  hash h key = Ok i -> 0 <= i ->
  table h !! Z.to_nat i = Some bucket -> inserts h !! Z.to_nat i = Some count ->
  put h key = Ok (if bool_decide (key ∈ bucket) then h else appended h i bucket count key).
Proof.
  intros Hh Hi Hb Hc. unfold put. rewrite (find_in_bucket h key i bucket) by done. simpl.
  destruct (bool_decide (key ∈ bucket)).
  - destruct (Z.eqb_spec i (-1)); [lia | done].
  - simpl. rewrite Hh. simpl.
    rewrite (proj2 (at_index_Ok (table h) i bucket)) by done. simpl.
    rewrite (proj2 (at_index_Ok (inserts h) i count)) by done. done.
Qed.

Lemma wf_cells (h : HashMap) (i : Z) :
  wf h -> 0 <= i < n h ->
  exists bucket count,
    table h !! Z.to_nat i = Some bucket /\ inserts h !! Z.to_nat i = Some count.
Proof.
  intros [Ht Hc] Hi.
  destruct (lookup_lt_is_Some_2 (table h) (Z.to_nat i)) as [bucket Hb]; [lia |].
  destruct (lookup_lt_is_Some_2 (inserts h) (Z.to_nat i)) as [count Hcount]; [lia |].
  by exists bucket, count.
Qed.

Lemma wf_appended (h : HashMap) (i : Z) (bucket : list string) (count : Z) (key : string) :
  wf h -> wf (appended h i bucket count key).
Proof. unfold wf, appended. simpl. by rewrite !length_insert. Qed.

Lemma hash_appended (h : HashMap) (i : Z) (bucket : list string) (count : Z) (key k : string) :
  hash (appended h i bucket count key) k = hash h k.
Proof. by apply hash_same_shape. Qed.

Lemma table_appended_here (h : HashMap) (i : Z) (bucket : list string) (count : Z)
    (key : string) :
  table h !! Z.to_nat i = Some bucket ->
  table (appended h i bucket count key) !! Z.to_nat i = Some (bucket ++ [key]).
Proof.
  intros Hb. simpl. apply list_lookup_insert_eq. by apply lookup_lt_Some in Hb.
Qed.

Lemma table_appended_other (h : HashMap) (i : Z) (bucket : list string) (count : Z)
    (key : string) (j : nat) :
  j <> Z.to_nat i -> table (appended h i bucket count key) !! j = table h !! j.
Proof. intros Hj. simpl. by apply list_lookup_insert_ne. Qed.

End Lookup.

(** ** [put], chain by chain *)

Section Put.

Lemma elem_of_concat (ls : list (list string)) (x : string) :
  x ∈ concat ls <-> exists i l, ls !! i = Some l /\ x ∈ l.
Proof.
  induction ls as [| l ls IH]; simpl.
  - split; [by intros ?%elem_of_nil | by intros (i & l & ? & _)].
  - rewrite elem_of_app, IH. split.
    + intros [Hx | (i & l' & Hl & Hx)]; [by exists 0%nat, l | by exists (S i), l'].
    + intros ([| i] & l' & Hl & Hx); simpl in Hl.
      * injection Hl as ->. by left.
      * right. by exists i, l'.
Qed.

Lemma stored_concat (h : HashMap) (key : string) : stored h key <-> key ∈ concat (table h).
Proof. unfold stored, stored_in. by rewrite elem_of_concat. Qed.

Lemma NoDup_concat (ls : list (list string)) :
  (forall i l, ls !! i = Some l -> NoDup l) ->
  (forall i j li lj x, ls !! i = Some li -> ls !! j = Some lj -> x ∈ li -> x ∈ lj -> i = j) ->
  NoDup (concat ls).
Proof.
  induction ls as [| l ls IH]; intros Hnd Hdisj; simpl; [constructor |].
  apply NoDup_app. split; [by apply (Hnd 0%nat) |]. split.
  - intros x Hx (j & lj & Hj & Hxj)%elem_of_concat.
    by specialize (Hdisj 0%nat (S j) l lj x eq_refl Hj Hx Hxj).
  - apply IH.
    + intros i li Hi. by apply (Hnd (S i)).
    + intros i j li lj x Hi Hj Hxi Hxj.
      by injection (Hdisj (S i) (S j) li lj x Hi Hj Hxi Hxj).
Qed.

(** Under [placed], a key is in at most one chain, at most once. *)
Lemma placed_NoDup (h : HashMap) : placed h -> NoDup (concat (table h)).
Proof.
  intros Hp. apply NoDup_concat.
  - intros i l Hl. by apply (Hp i l).
  - intros i j li lj x Hi Hj Hxi Hxj.
    destruct (Hp i li Hi) as [_ Hhi], (Hp j lj Hj) as [_ Hhj].
    specialize (Hhi x Hxi). specialize (Hhj x Hxj). rewrite Hhi in Hhj.
    injection Hhj. lia.
Qed.

Lemma placed_appended (h : HashMap) (i : Z) (bucket : list string) (count : Z) (key : string) :
  placed h -> hash h key = Ok i -> 0 <= i ->
  table h !! Z.to_nat i = Some bucket -> key ∉ bucket ->
  placed (appended h i bucket count key).
Proof.
  intros Hp Hh Hi Hb Hnew j l Hl.
  destruct (decide (j = Z.to_nat i)) as [-> | Hj].
  - rewrite (table_appended_here h i bucket count key Hb) in Hl. injection Hl as <-.
    destruct (Hp _ _ Hb) as [Hnd Hkeys]. split.
    + apply NoDup_app. split; [done |]. split; [| apply NoDup_singleton].
      intros x Hx ->%list_elem_of_singleton. done.
    + intros k Hk. rewrite hash_appended.
      apply elem_of_app in Hk as [Hk | ->%list_elem_of_singleton]; [by apply Hkeys |].
      rewrite Hh. f_equal. lia.
  - rewrite table_appended_other in Hl by done.
    destruct (Hp _ _ Hl) as [Hnd Hkeys]. split; [done |].
    intros k Hk. rewrite hash_appended. by apply Hkeys.
Qed.

Lemma placed_fresh (m : HCM) (s : Z) : placed (fresh_table m s).
Proof.
  intros i bucket [-> _]%lookup_replicate. split; [constructor |].
  by intros key ?%elem_of_nil.
Qed.

Lemma counted_appended (h : HashMap) (i : Z) (bucket : list string) (key : string) :
  counted h -> table h !! Z.to_nat i = Some bucket ->
  counted (appended h i bucket (Int32.wrap (Z.of_nat (length bucket))) key).
Proof.
  intros Hc Hb j l Hl.
  destruct (decide (j = Z.to_nat i)) as [-> | Hj].
  - rewrite (table_appended_here _ _ _ _ _ Hb) in Hl. injection Hl as <-. simpl.
    rewrite list_lookup_insert_eq.
    + f_equal. rewrite wrap_add_l, length_app. simpl. f_equal. lia.
    + eapply lookup_lt_Some. by apply Hc.
  - rewrite table_appended_other in Hl by done. simpl.
    rewrite list_lookup_insert_ne by done. by apply Hc.
Qed.

End Put.

(** ** What [find] and [put] return *)

Section Find_put_results.

Lemma find_stored_in (h : HashMap) (key : string) (i : Z) :
  hash h key = Ok i -> 0 <= i -> stored_in h (Z.to_nat i) key -> find h key = Ok i.
Proof.
  intros Hh Hi (bucket & Hb & Hin).
  by rewrite (find_in_bucket h key i bucket), bool_decide_eq_true_2.
Qed.

Lemma find_not_stored_in (h : HashMap) (key : string) (i : Z) :
  wf h -> hash h key = Ok i -> 0 <= i < n h ->
  ~ stored_in h (Z.to_nat i) key -> find h key = Ok (-1).
Proof.
  intros Hwf Hh Hi Hnot.
  destruct (wf_cells h i Hwf Hi) as (bucket & _ & Hb & _).
  rewrite (find_in_bucket h key i bucket), bool_decide_eq_false_2; try done; [| lia].
  intros Hin. apply Hnot. by exists bucket.
Qed.

Lemma find_Ok_cases (h : HashMap) (key : string) (v : Z) :
  find h key = Ok v ->
  v = -1 \/ (0 <= v < Z.of_nat (length (table h)) /\ stored_in h (Z.to_nat v) key).
Proof.
  intros (i & bucket & _ & Hi & Hb & [[Hin ->] | [_ ->]])%find_Ok_inv; [right | by left].
  split; [| by exists bucket]. apply lookup_lt_Some in Hb. lia.
Qed.

Lemma placed_stored_in (h : HashMap) (key : string) (i : Z) :
  placed h -> hash h key = Ok i -> stored h key -> stored_in h (Z.to_nat i) key.
Proof.
  intros Hp Hh (j & bucket & Hb & Hin).
  destruct (Hp j bucket Hb) as [_ Hkeys]. specialize (Hkeys key Hin).
  rewrite Hh in Hkeys. injection Hkeys as ->. rewrite Nat2Z.id. by exists bucket.
Qed.

Lemma put_Ok_inv (h h1 : HashMap) (key : string) :
  put h key = Ok h1 ->
  (h1 = h /\ stored h key)
  \/ exists i bucket count,
       h1 = appended h i bucket count key
       /\ hash h key = Ok i /\ 0 <= i
       /\ table h !! Z.to_nat i = Some bucket
       /\ inserts h !! Z.to_nat i = Some count
       /\ key ∉ bucket.
Proof.
  unfold put. destruct (find h key) as [v |] eqn:Hf; [simpl | discriminate].
  destruct (Z.eqb_spec v (-1)) as [-> | Hv].
  - destruct (hash h key) as [i |] eqn:Hh; [simpl | discriminate].
    destruct (at_index (table h) i) as [bucket |] eqn:Hb; [simpl | discriminate].
    destruct (at_index (inserts h) i) as [count |] eqn:Hc; [simpl | discriminate].
    intros [= <-]. right. exists i, bucket, count.
    apply at_index_Ok in Hb as [Hi Hb]. apply at_index_Ok in Hc as [_ Hc].
    repeat (split; [done |]).
    rewrite (find_in_bucket h key i bucket) in Hf by done.
    destruct (bool_decide_reflect (key ∈ bucket)); [| done].
    injection Hf. lia.
  - intros [= <-]. left. split; [done |].
    apply find_Ok_cases in Hf as [-> | [_ Hs]]; [done |]. by exists (Z.to_nat v).
Qed.

Lemma put_shape (h h1 : HashMap) (key : string) :
  put h key = Ok h1 ->
  n h1 = n h /\ HashCodeMethod h1 = HashCodeMethod h /\ (wf h -> wf h1).
Proof.
  intros [[-> _] | (i & bucket & count & -> & _)]%put_Ok_inv; [done |].
  split; [done |]. split; [done |]. apply wf_appended.
Qed.


(** [put] returns when the bucket index is valid, and the key is then in
    the chain of that bucket. *)
Lemma put_valid (h : HashMap) (key : string) (i : Z) :
  wf h -> hash h key = Ok i -> 0 <= i < n h ->
  exists h1, put h key = Ok h1 /\ stored_in h1 (Z.to_nat i) key.
Proof.
  intros Hwf Hh Hi.
  destruct (wf_cells h i Hwf Hi) as (bucket & count & Hb & Hc).
  rewrite (put_in_bucket h key i bucket count) by (done || lia).
  destruct (bool_decide_reflect (key ∈ bucket)) as [Hin | Hnew]; eexists; (split; [done |]).
  - by exists bucket.
  - exists (bucket ++ [key]). split; [by apply table_appended_here |].
    apply elem_of_app. right. by apply list_elem_of_singleton.
Qed.

(** A second [put] of the same key changes nothing. *)
Lemma put_again (h h1 : HashMap) (key : string) : put h key = Ok h1 -> put h1 key = Ok h1.
Proof.
  intros Hput.
  destruct (put_Ok_inv h h1 key Hput)
    as [[-> _] | (i & bucket & count & -> & Hh & Hi & Hb & Hc & _)]; [done |].
  rewrite (put_in_bucket _ key i (bucket ++ [key]) (Int32.wrap (count + 1))).
  - rewrite bool_decide_eq_true_2; [done |].
    apply elem_of_app. right. by apply list_elem_of_singleton.
  - by rewrite hash_appended.
  - done.
  - by apply table_appended_here.
  - simpl. apply list_lookup_insert_eq. by apply lookup_lt_Some in Hc.
Qed.

Lemma put_placed (h h1 : HashMap) (key : string) :
  placed h -> put h key = Ok h1 -> placed h1.
Proof.
  intros Hp [[-> _] | (i & bucket & count & -> & Hh & Hi & Hb & _ & Hnew)]%put_Ok_inv;
    [done |].
  by apply placed_appended.
Qed.

Lemma put_stores (h h1 : HashMap) (key : string) : put h key = Ok h1 -> stored h1 key.
Proof.
  intros [[-> Hs] | (i & bucket & count & -> & _ & _ & Hb & _)]%put_Ok_inv; [done |].
  exists (Z.to_nat i), (bucket ++ [key]). split; [by apply table_appended_here |].
  apply elem_of_app. right. by apply list_elem_of_singleton.
Qed.

Lemma fresh_stores_nothing (m : HCM) (s : Z) (key : string) : ~ stored (fresh_table m s) key.
Proof. intros (i & bucket & [-> _]%lookup_replicate & Hin). by apply elem_of_nil in Hin. Qed.

End Find_put_results.

(** C1 (code at fault).  For every key that no chain of the table holds
    (the table having [bucket_count > 0] and the key a valid bucket index):
    [find] returns [-1]; [erase] takes its [if (bucketIdx)] branch with that
    [-1] and reads [table[-1]], outside the array, instead of returning the
    table unchanged. *)
Theorem erase_absent_reads_out_of_bounds (h : HashMap) (key : string) (i : Z) :
  wf h -> hash h key = Ok i -> 0 <= i < n h -> ~ stored h key ->
  find h key = Ok (-1)
  /\ at_index (table h) (-1) = Fail OutOfBounds
  /\ erase h key = Fail OutOfBounds.
Proof.
  intros Hwf Hh Hi Habsent.
  assert (Hf : find h key = Ok (-1)).
  { apply (find_not_stored_in h key i); try done.
    intros Hin. apply Habsent. by exists (Z.to_nat i). }
  split; [done |]. split; [by apply at_index_negative |].
  unfold erase. rewrite Hf. cbn [bind]. simpl negb. cbn iota.
  by rewrite at_index_negative.
Qed.

Lemma erase_absent_reads_out_of_bounds_witness :
  find (fresh_table simple 1) "a" = Ok (-1)
  /\ erase (fresh_table simple 1) "a" = Fail OutOfBounds.
Proof.
  destruct (erase_absent_reads_out_of_bounds (fresh_table simple 1) "a" 0)
    as (H1 & _ & H3).
  - split; reflexivity.
  - reflexivity.
  - cbn. lia.
  - apply fresh_stores_nothing.
  - by split.
Defined.

(** C4 (as amended).  For every key and every table, whenever [put]
    returns a table, a second [put] of the same key returns the very same
    table (same chains in the same order, same counters) and the key is
    stored; [put] returns whenever [hash] computes a valid bucket index (the
    table then has [bucket_count > 0]).  On a table whose keys are all placed
    in the chain they hash to under the current method, without repetition,
    [put] keeps that placement, and every key occurs at most once in the
    sequence of all chains. *)
Theorem put_twice (h : HashMap) (key : string) :
  (forall h1, put h key = Ok h1 ->
     put h1 key = Ok h1
     /\ stored h1 key
     /\ (placed h -> placed h1 /\ NoDup (concat (table h1))))
  /\ (forall i, wf h -> hash h key = Ok i -> 0 <= i < n h ->
        exists h1, put h key = Ok h1 /\ stored_in h1 (Z.to_nat i) key).
Proof.
  split.
  - intros h1 Hput. split; [by apply (put_again h) |].
    split; [by apply (put_stores h) |].
    intros Hp. pose proof (put_placed h h1 key Hp Hput) as Hp1.
    split; [done | by apply placed_NoDup].
  - intros i Hwf Hh Hi. by apply put_valid.
Qed.

Lemma put_twice_witness :
  exists h1,
    put (fresh_table simple 7) "cat" = Ok h1
    /\ put h1 "cat" = Ok h1
    /\ NoDup (concat (table h1)).
Proof.
  destruct (put_twice (fresh_table simple 7) "cat") as [Hagain Hret].
  destruct (Hret 5) as (h1 & Hput & _).
  - split; reflexivity.
  - reflexivity.
  - cbn. lia.
  - destruct (Hagain h1 Hput) as (H2 & _ & H3).
    exists h1. split; [exact Hput |]. split; [exact H2 |].
    apply H3. apply placed_fresh.
Defined.

(** C4, as stated, fails in its uniqueness part.  After "resize 5" and
    "put dog" under the Simple method the key is in bucket 0; after
    "hash_code poly" it hashes to bucket 4, so the next "put dog" does not
    meet it and appends it again: "dog" is in two chains. *)
Lemma put_twice_counterexample :
  (let* t := resizeTable empty_map 5 in
   let* t := put t "dog" in
   Ok (setHashCodeMethod t "poly")) = Ok dog_then_poly
  /\ put dog_then_poly "dog" = Ok dog_twice
  /\ table dog_twice !! 0%nat = Some ["dog"]
  /\ table dog_twice !! 4%nat = Some ["dog"]
  /\ ~ NoDup (concat (table dog_twice)).
Proof.
  repeat (split; [reflexivity |]).
  intros Hnd. simpl in Hnd. apply NoDup_cons in Hnd as [Hnot _].
  apply Hnot, list_elem_of_here.
Qed.

(** C10 (as amended).  For every key whose bucket index [hash] computes
    (a valid index of a table with [bucket_count > 0]): [find] returns that
    index when the key is in the chain of its bucket, and the integer [-1]
    when it is not, in particular when no chain holds it; on a table whose
    keys are all placed in the chain they hash to under the current method,
    it returns the index of the chain containing the key for every stored
    key.  The [find] command prints from that result and leaves the table
    as it was; and whatever [find] returns is either [-1] or the index, in
    [[0, bucket_count)], of a chain that holds the key. *)
Theorem find_result (h : HashMap) (key : string) (i : Z) :
  wf h -> hash h key = Ok i -> 0 <= i < n h ->
  (stored_in h (Z.to_nat i) key ->
     find h key = Ok i /\ find_command h key = Ok (found_at i, h))
  /\ (~ stored_in h (Z.to_nat i) key ->
     find h key = Ok (-1) /\ find_command h key = Ok (not_found, h))
  /\ (~ stored h key -> find h key = Ok (-1))
  /\ (placed h -> stored h key -> find h key = Ok i /\ stored_in h (Z.to_nat i) key)
  /\ (forall v, find h key = Ok v ->
        v = -1 \/ (0 <= v < n h /\ stored_in h (Z.to_nat v) key)).
Proof.
  intros Hwf Hh Hi.
  split; [| split; [| split; [| split]]].
  - intros Hs. pose proof (find_stored_in h key i Hh (proj1 Hi) Hs) as Hf.
    split; [done |]. unfold find_command. rewrite Hf. simpl.
    destruct (Z.leb_spec 0 i); [done | lia].
  - intros Hs. pose proof (find_not_stored_in h key i Hwf Hh Hi Hs) as Hf.
    split; [done |]. unfold find_command. by rewrite Hf.
  - intros Hs. apply (find_not_stored_in h key i); try done.
    intros Hin. apply Hs. by exists (Z.to_nat i).
  - intros Hp Hs. pose proof (placed_stored_in h key i Hp Hh Hs) as Hin.
    split; [by apply find_stored_in; [| lia |] | done].
  - intros v [-> | [Hv Hs]]%find_Ok_cases; [by left | right].
    destruct Hwf as [Ht _]. split; [lia | done].
Qed.

Lemma find_result_witness :
  (find (fresh_table simple 7) "cat" = Ok (-1)
   /\ find_command (fresh_table simple 7) "cat" = Ok (not_found, fresh_table simple 7))
  /\ (find cat_dog "cat" = Ok 1
      /\ find_command cat_dog "cat" = Ok (found_at 1, cat_dog)).
Proof.
  split.
  - destruct (find_result (fresh_table simple 7) "cat" 5) as (_ & H2 & _).
    + split; reflexivity.
    + reflexivity.
    + cbn. lia.
    + apply H2. intros (b & Hb & Hin). vm_compute in Hb. injection Hb as <-.
      by apply elem_of_nil in Hin.
  - destruct (find_result cat_dog "cat" 1) as (H1 & _).
    + split; reflexivity.
    + reflexivity.
    + cbn. lia.
    + apply H1. exists ["cat"]. split; [reflexivity | apply list_elem_of_here].
Defined.

(** C10, as stated, fails for a stored key that is not in the bucket it
    hashes to: after "resize 5", "put dog" and "hash_code poly" the key is
    in the chain of bucket 0, [find] scans bucket 4 and returns [-1], and the
    command prints "not found". *)
Lemma find_result_counterexample :
  (let* t := resizeTable empty_map 5 in
   let* t := put t "dog" in
   Ok (setHashCodeMethod t "poly")) = Ok dog_then_poly
  /\ table dog_then_poly !! 0%nat = Some ["dog"]
  /\ hash dog_then_poly "dog" = Ok 4
  /\ find dog_then_poly "dog" = Ok (-1)
  /\ find_command dog_then_poly "dog" = Ok (not_found, dog_then_poly).
Proof. repeat split. Qed.

(** C2 (code at fault).  When the key's bucket index is 0: [put] stores the
    key and [find] reports it at bucket 0, but [erase] reads that 0 as
    "false", returns the table untouched, and [find] keeps reporting the key
    present. *)
Theorem erase_keeps_key_of_bucket_zero (h : HashMap) (key : string) :
  wf h -> hash h key = Ok 0 ->
  exists h1,
    put h key = Ok h1
    /\ find h1 key = Ok 0
    /\ erase h1 key = Ok h1
    /\ stored_in h1 0 key.
Proof.
  intros Hwf Hh.
  assert (Hn : 0 <= 0 < n h).
  { pose proof (hash_Ok_size h key 0 Hh). destruct Hwf as [Ht _]. lia. }
  destruct (put_valid h key 0 Hwf Hh Hn) as (h1 & Hput & Hs).
  exists h1. split; [done |].
  destruct (put_shape h h1 key Hput) as (Hn1 & Hm1 & _).
  assert (Hh1 : hash h1 key = Ok 0) by (by rewrite (hash_same_shape h h1)).
  pose proof (find_stored_in h1 key 0 Hh1 (Z.le_refl 0) Hs) as Hf.
  split; [done |]. split; [| done]. unfold erase. by rewrite Hf.
Qed.

Lemma erase_keeps_key_of_bucket_zero_witness :
  exists h1,
    put (fresh_table simple 1) "a" = Ok h1
    /\ find h1 "a" = Ok 0
    /\ erase h1 "a" = Ok h1.
Proof.
  destruct (erase_keeps_key_of_bucket_zero (fresh_table simple 1) "a")
    as (h1 & H1 & H2 & H3 & _).
  - split; reflexivity.
  - reflexivity.
  - by exists h1.
Defined.

(** The other buckets: a key met in a bucket of non-zero index is removed
    from its chain, the counter is decremented, and [find] no longer meets it. *)
Lemma erase_removes_elsewhere (h : HashMap) (key : string) (i : Z) :
  wf h -> find h key = Ok i -> 0 < i ->
  exists h2, erase h key = Ok h2 /\ find h2 key = Ok (-1) /\ ~ stored_in h2 (Z.to_nat i) key.
Proof.
  intros Hwf Hf Hi.
  destruct (find_Ok_inv h key i Hf) as (j & bucket & Hh & Hj & Hb & [[Hin <-] | [_ ->]]);
    [| lia].
  destruct (lookup_lt_is_Some_2 (inserts h) (Z.to_nat i)) as [count Hc].
  { apply lookup_lt_Some in Hb. destruct Hwf. lia. }
  eexists. split.
  { unfold erase. rewrite Hf. simpl. destruct (Z.eqb_spec i 0); [lia |]. simpl.
    rewrite (proj2 (at_index_Ok (table h) i bucket)) by done. simpl.
    rewrite (proj2 (at_index_Ok (inserts h) i count)) by done. done. }
  assert (Hb' : <[Z.to_nat i := filter (λ x, x ≠ key) bucket]> (table h) !! Z.to_nat i
                = Some (filter (λ x, x ≠ key) bucket)).
  { apply list_lookup_insert_eq. by apply lookup_lt_Some in Hb. }
  assert (Hgone : key ∉ filter (λ x, x ≠ key) bucket).
  { intros [Hne _]%list_elem_of_filter. done. }
  split.
  - rewrite (find_in_bucket _ key i (filter (λ x, x ≠ key) bucket)); try done.
    by rewrite bool_decide_eq_false_2.
  - intros (b & Hb'' & Hin'). simpl in Hb''. rewrite Hb' in Hb''. by injection Hb'' as <-.
Qed.

(** ** Every reachable table is well formed *)

Section Reachable.

Lemma put_all_shape (keys : list string) (g g' : HashMap) :
  put_all keys g = Ok g' ->
  n g' = n g /\ HashCodeMethod g' = HashCodeMethod g /\ (wf g -> wf g').
Proof.
  revert g. induction keys as [| key rest IH]; intros g; simpl; [by intros [= <-] |].
  destruct (put g key) as [g1 |] eqn:Hput; [simpl | discriminate].
  intros Hrest. destruct (put_shape g g1 key Hput) as (Hn1 & Hm1 & Hwf1).
  destruct (IH g1 Hrest) as (Hn' & Hm' & Hwf').
  split; [lia |]. split; [congruence | tauto].
Qed.

Lemma replay_shape (old : list (list string)) (g g' : HashMap) :
  replay old g = Ok g' ->
  n g' = n g /\ HashCodeMethod g' = HashCodeMethod g /\ (wf g -> wf g').
Proof.
  revert g. induction old as [| curList rest IH]; intros g; simpl; [by intros [= <-] |].
  destruct (put_all curList g) as [g1 |] eqn:Hput; [simpl | discriminate].
  intros Hrest. destruct (put_all_shape curList g g1 Hput) as (Hn1 & Hm1 & Hwf1).
  destruct (IH g1 Hrest) as (Hn' & Hm' & Hwf').
  split; [lia |]. split; [congruence | tauto].
Qed.

Lemma wf_fresh (m : HCM) (s : Z) : 0 <= s -> wf (fresh_table m s).
Proof. intros Hs. unfold wf, fresh_table. simpl. rewrite !length_replicate. lia. Qed.

Lemma resizeTable_shape (h h' : HashMap) (s : Z) :
  resizeTable h s = Ok h' -> n h' = s /\ HashCodeMethod h' = HashCodeMethod h /\ wf h'.
Proof.
  unfold resizeTable. destruct (Z.ltb_spec s 0); [discriminate |].
  destruct (Z.of_nat (length (table h)) <? n h); [discriminate |].
  intros (Hn & Hm & Hwf)%replay_shape. split; [done |]. split; [done |].
  by apply Hwf, wf_fresh.
Qed.

Lemma erase_wf (h h' : HashMap) (key : string) : erase h key = Ok h' -> wf h -> wf h'.
Proof.
  unfold erase. destruct (find h key) as [v |]; [simpl | discriminate].
  destruct (negb (v =? 0)); [| by intros [= <-]].
  destruct (at_index (table h) v) as [bucket |]; [simpl | discriminate].
  destruct (at_index (inserts h) v) as [count |]; [simpl | discriminate].
  intros [= <-]. unfold wf. simpl. by rewrite !length_insert.
Qed.

Lemma setHashCodeMethod_arrays (h : HashMap) (m : string) :
  n (setHashCodeMethod h m) = n h
  /\ table (setHashCodeMethod h m) = table h
  /\ inserts (setHashCodeMethod h m) = inserts h.
Proof.
  unfold setHashCodeMethod.
  by destruct (String.eqb m "poly"), (String.eqb m "simple"),
    (String.eqb m "cyclic"), (String.eqb m "custom").
Qed.

Lemma reachable_wf (h : HashMap) : reachable h -> wf h.
Proof.
  induction 1 as [| h s h' _ _ Hr | h key h' _ IH Hp | h key h' _ IH He | h m _ IH].
  - by split.
  - by apply resizeTable_shape in Hr as (_ & _ & Hwf).
  - by apply (put_shape h h' key Hp).
  - by apply (erase_wf h h' key He).
  - destruct (setHashCodeMethod_arrays h m) as (Hn & Ht & Hc).
    unfold wf. by rewrite Hn, Ht, Hc.
Qed.

End Reachable.

(** ** The replay of [resizeTable] *)

Section Replay.

Lemma wf_old_buckets (h : HashMap) :
  wf h ->
  (Z.of_nat (length (table h)) <? n h) = false
  /\ take (Z.to_nat (n h)) (table h) = table h.
Proof.
  intros [Ht _]. split; [apply Z.ltb_ge; lia | apply take_ge; lia].
Qed.




End Replay.




(** ** Rehashing *)

Section Rehash.

Lemma hash_valid_same_shape (h g : HashMap) (key : string) :
  HashCodeMethod g = HashCodeMethod h -> n g = n h -> hash_valid h key -> hash_valid g key.
Proof.
  intros Hm Hn (i & Hh & Hi). exists i. rewrite (hash_same_shape h g) by done.
  split; [done | lia].
Qed.

Lemma rehashed_fresh (m : HCM) (s : Z) : 0 <= s -> rehashed (fresh_table m s).
Proof.
  intros Hs. split; [| split].
  - unfold wf, fresh_table. simpl. rewrite !length_replicate. lia.
  - apply placed_fresh.
  - intros i bucket [-> Hi]%lookup_replicate. simpl.
    by rewrite lookup_replicate_2.
Qed.

(** One [put] of the replay. *)
Lemma put_rehashed (g : HashMap) (key : string) :
  rehashed g -> hash_valid g key ->
  exists g',
    put g key = Ok g'
    /\ rehashed g'
    /\ n g' = n g /\ HashCodeMethod g' = HashCodeMethod g
    /\ (forall k, stored g' k <-> stored g k \/ k = key).
Proof.
  intros Hg (i & Hh & Hi). pose proof Hg as (Hwf & Hp & Hc).
  destruct (wf_cells g i Hwf Hi) as (bucket & count & Hb & Hcount).
  pose proof (put_in_bucket g key i bucket count Hh (proj1 Hi) Hb Hcount) as Hput.
  destruct (bool_decide_reflect (key ∈ bucket)) as [Hin | Hnew].
  - exists g. split; [done |]. split; [done |]. split; [done |]. split; [done |].
    intros k. split; [by left |].
    intros [Hs | ->]; [done |]. by exists (Z.to_nat i), bucket.
  - exists (appended g i bucket count key). split; [done |].
    assert (count = Int32.wrap (Z.of_nat (length bucket))) as Hcount'.
    { specialize (Hc _ _ Hb). rewrite Hcount in Hc. by injection Hc. }
    split; [| split; [done | split; [done |]]].
    + split; [by apply wf_appended | split].
      * apply placed_appended; [done | done | lia | done | done].
      * rewrite Hcount'. by apply counted_appended.
    + intros k. split.
      * intros (j & l & Hl & Hk).
        destruct (decide (j = Z.to_nat i)) as [-> | Hj].
        -- rewrite (table_appended_here g i bucket count key Hb) in Hl.
           injection Hl as <-.
           apply elem_of_app in Hk as [Hk | ->%list_elem_of_singleton]; [| by right].
           left. by exists (Z.to_nat i), bucket.
        -- rewrite table_appended_other in Hl by done. left. by exists j, l.
      * intros [(j & l & Hl & Hk) | ->].
        -- destruct (decide (j = Z.to_nat i)) as [-> | Hj].
           ++ exists (Z.to_nat i), (bucket ++ [key]).
              split; [by apply table_appended_here |].
              rewrite Hb in Hl. injection Hl as <-. apply elem_of_app. by left.
           ++ exists j, l. split; [by rewrite table_appended_other | done].
        -- exists (Z.to_nat i), (bucket ++ [key]).
           split; [by apply table_appended_here |].
           apply elem_of_app. right. by apply list_elem_of_singleton.
Qed.

Lemma put_all_rehashed (keys : list string) (g : HashMap) :
  rehashed g -> (forall k, k ∈ keys -> hash_valid g k) ->
  exists g',
    put_all keys g = Ok g'
    /\ rehashed g'
    /\ n g' = n g /\ HashCodeMethod g' = HashCodeMethod g
    /\ (forall k, stored g' k <-> stored g k \/ k ∈ keys).
Proof.
  revert g. induction keys as [| key rest IH]; intros g Hg Hvalid; simpl.
  - exists g. split; [done |]. split; [done |]. split; [done |]. split; [done |].
    intros k. split; [by left |].
    intros [Hs | Hin]; [done | by apply elem_of_nil in Hin].
  - destruct (put_rehashed g key Hg) as (g1 & -> & Hg1 & Hn1 & Hm1 & Hs1).
    { apply Hvalid. apply list_elem_of_here. }
    simpl. destruct (IH g1 Hg1) as (g' & Hput & Hg' & Hn' & Hm' & Hs').
    { intros k Hk. apply (hash_valid_same_shape g); [done | done |].
      apply Hvalid. by apply list_elem_of_further. }
    exists g'. split; [done |]. split; [done |].
    split; [lia |]. split; [congruence |].
    intros k. rewrite Hs', Hs1, elem_of_cons. tauto.
Qed.

Lemma replay_rehashed (old : list (list string)) (g : HashMap) :
  rehashed g -> (forall k, k ∈ concat old -> hash_valid g k) ->
  exists g',
    replay old g = Ok g'
    /\ rehashed g'
    /\ n g' = n g /\ HashCodeMethod g' = HashCodeMethod g
    /\ (forall k, stored g' k <-> stored g k \/ k ∈ concat old).
Proof.
  revert g. induction old as [| curList rest IH]; intros g Hg Hvalid; simpl.
  - exists g. split; [done |]. split; [done |]. split; [done |]. split; [done |].
    intros k. split; [by left |].
    intros [Hs | Hin]; [done | by apply elem_of_nil in Hin].
  - destruct (put_all_rehashed curList g Hg) as (g1 & -> & Hg1 & Hn1 & Hm1 & Hs1).
    { intros k Hk. apply Hvalid. simpl. apply elem_of_app. by left. }
    simpl. destruct (IH g1 Hg1) as (g' & Hput & Hg' & Hn' & Hm' & Hs').
    { intros k Hk. apply (hash_valid_same_shape g); [done | done |].
      apply Hvalid. simpl. apply elem_of_app. by right. }
    exists g'. split; [done |]. split; [done |].
    split; [lia |]. split; [congruence |].
    intros k. rewrite Hs', Hs1, elem_of_app. tauto.
Qed.

End Rehash.

(** What [resizeTable] does when no index is negative.  For every table
    with its [n] buckets and counters (every table a
    sequence of puts can reach is one) and every [m > 0] for which [hash]
    computes a valid bucket index, under the current method, for every stored
    key: [resizeTable m] returns; the new table has [bucket_count = m] and the
    same method; [find] meets every key that was stored before, in the bucket
    it now hashes to; no other key is stored; and the counters are those of
    the replay alone: each counts the keys of its new chain, whatever the
    old counters were. *)
Theorem resizeTable_rehash (h : HashMap) (m : Z) :
  wf h -> 0 < m ->
  (forall key, stored h key -> hash_valid (fresh_table (HashCodeMethod h) m) key) ->
  exists h',
    resizeTable h m = Ok h'
    /\ n h' = m /\ HashCodeMethod h' = HashCodeMethod h
    /\ wf h' /\ placed h'
    /\ (forall key, stored h key ->
          exists i, find h' key = Ok i /\ 0 <= i < m /\ stored_in h' (Z.to_nat i) key)
    /\ (forall key, stored h' key -> stored h key)
    /\ (forall i bucket, table h' !! i = Some bucket ->
          inserts h' !! i = Some (Int32.wrap (Z.of_nat (length bucket))))
    /\ (forall counts,
          resizeTable {| HashCodeMethod := HashCodeMethod h; n := n h;
                         table := table h; inserts := counts |} m = Ok h').
Proof.
  intros Hwf Hm Hvalid.
  destruct (replay_rehashed (table h) (fresh_table (HashCodeMethod h) m))
    as (h' & Hreplay & (Hwf' & Hp' & Hc') & Hn' & Hm' & Hs').
  { apply rehashed_fresh. lia. }
  { intros k Hk. apply Hvalid. by apply stored_concat. }
  assert (Hresize : forall counts,
            resizeTable {| HashCodeMethod := HashCodeMethod h; n := n h;
                           table := table h; inserts := counts |} m = Ok h').
  { intros counts. unfold resizeTable. simpl.
    destruct (Z.ltb_spec m 0); [lia |].
    destruct (wf_old_buckets h Hwf) as [-> ->]. done. }
  exists h'. split.
  { specialize (Hresize (inserts h)). by destruct h. }
  simpl in Hn'. split; [done |]. split; [done |]. split; [done |]. split; [done |].
  split; [| split; [| split; [done | done]]].
  - intros key Hkey.
    destruct (Hvalid key Hkey) as (i & Hh & Hi). simpl in Hi.
    assert (Hh' : hash h' key = Ok i).
    { rewrite <- Hh. by apply hash_same_shape. }
    assert (Hstored : stored h' key).
    { apply Hs'. right. by apply stored_concat. }
    pose proof (placed_stored_in h' key i Hp' Hh' Hstored) as Hin.
    exists i. split; [by apply find_stored_in; [| lia |] | done].
  - intros key [Hnone | Hin]%Hs'.
    + by apply fresh_stores_nothing in Hnone.
    + by apply stored_concat.
Qed.

Lemma resizeTable_rehash_witness :
  (let* t := resizeTable empty_map 5 in put_all ["cat"; "dog"] t) = Ok cat_dog
  /\ exists h',
       resizeTable cat_dog 3 = Ok h'
       /\ n h' = 3
       /\ (forall key, stored cat_dog key -> exists i, find h' key = Ok i /\ 0 <= i < 3).
Proof.
  split; [reflexivity |].
  destruct (resizeTable_rehash cat_dog 3) as (h' & H1 & H2 & _ & _ & _ & H6 & _).
  - split; reflexivity.
  - lia.
  - intros key Hkey%stored_concat. simpl in Hkey.
    repeat (apply elem_of_cons in Hkey as [-> | Hkey]);
      [| | by apply elem_of_nil in Hkey];
      eexists; (split; [reflexivity | vm_compute; split; [discriminate | reflexivity]]).
  - exists h'. split; [exact H1 |]. split; [exact H2 |].
    intros key Hkey. destruct (H6 key Hkey) as (i & Hf & Hi & _). by exists i.
Defined.

(** The key "dsxjswf" has the one Cyclic code for which [7 * code + 103] is
    [INT_MIN]: [abs] leaves it negative, and so is the index whenever the
    number of buckets does not divide 69926349. *)
Lemma hash_dsxjswf (m : Z) :
  0 < m -> hash (fresh_table cyclic m) "dsxjswf" = Ok (- (69926349 mod m)).
Proof.
  intros Hm. unfold hash, hashCode, hashCompress. cbn [HashCodeMethod n fresh_table].
  change (hashCodeCyclic "dsxjswf") with (-306783393). cbn [bind].
  change (Int32.wrap (Int32.wrap (7 * -306783393) + 103)) with Int32.INT_MIN.
  change (Z.rem (Int32.abs Int32.INT_MIN) 109345121) with (Z.opp 69926349).
  destruct (Z.eqb_spec m 0) as [Hz | _]; [lia |]. cbn [bind]. f_equal.
  pose proof (Z.mod_pos_bound 69926349 m Hm) as Hb.
  rewrite (Z.rem_opp_l' 69926349 m), (Z.rem_mod_nonneg 69926349 m) by lia.
  rewrite (Z.rem_opp_l' (69926349 mod m) m), (Z.rem_mod_nonneg (69926349 mod m) m) by lia.
  by rewrite Z.mod_mod by lia.
Qed.

(** C5 (code at fault).  Under the Cyclic method, after "resize 3" and
    "put dsxjswf" the key is stored in bucket 0 and [find] meets it.  For
    every new size [m > 0] that does not divide 69926349 (2 is one), [hash]
    then computes the negative index [-(69926349 mod m)] for the key:
    [resizeTable m] re-inserts it through [table[index]] outside the new
    array, and the key is not present afterwards as [resizeTable]'s
    postcondition says. *)
Theorem resizeTable_negative_index (m : Z) :
  0 < m -> 69926349 mod m <> 0 ->
  exists h1 h2,
    resizeTable (setHashCodeMethod empty_map "cyclic") 3 = Ok h1
    /\ put h1 "dsxjswf" = Ok h2
    /\ reachable h2
    /\ find h2 "dsxjswf" = Ok 0
    /\ hash (fresh_table cyclic m) "dsxjswf" = Ok (- (69926349 mod m))
    /\ - (69926349 mod m) < 0
    /\ resizeTable h2 m = Fail OutOfBounds.
Proof.
  intros Hm Hrem.
  assert (Hneg : - (69926349 mod m) < 0).
  { pose proof (Z.mod_pos_bound 69926349 m Hm). lia. }
  assert (H1 : resizeTable (setHashCodeMethod empty_map "cyclic") 3 = Ok (fresh_table cyclic 3))
    by reflexivity.
  assert (H2 : put (fresh_table cyclic 3) "dsxjswf"
               = Ok {| HashCodeMethod := cyclic; n := 3;
                       table := [["dsxjswf"]; []; []]; inserts := [1; 0; 0] |})
    by reflexivity.
  eexists _, _. split; [exact H1 |]. split; [exact H2 |]. split; [| split; [reflexivity |]].
  { eapply reach_put; [| exact H2]. eapply reach_resize; [| exact H1].
    apply reach_method, reach_new. }
  split; [by apply hash_dsxjswf |]. split; [done |].
  unfold resizeTable. destruct (Z.ltb_spec m 0) as [Hlt | _]; [lia |].
  cbn [n table length take Z.to_nat Z.of_nat Pos.to_nat Pos.iter_op Init.Nat.add
       Pos.of_succ_nat Pos.succ HashCodeMethod replay put_all].
  change (3 <? 3) with false. cbv iota.
  change (take (Z.to_nat 3) [["dsxjswf"]; []; []]) with [["dsxjswf"]; []; []].
  cbn [replay put_all]. unfold put at 1, find at 1.
  rewrite hash_dsxjswf by done. cbn [bind].
  by rewrite at_index_negative.
Qed.

Lemma resizeTable_negative_index_witness :
  exists h2,
    (let* h1 := resizeTable (setHashCodeMethod empty_map "cyclic") 3 in put h1 "dsxjswf")
    = Ok h2
    /\ find h2 "dsxjswf" = Ok 0
    /\ hash (fresh_table cyclic 2) "dsxjswf" = Ok (-1)
    /\ resizeTable h2 2 = Fail OutOfBounds.
Proof.
  destruct (resizeTable_negative_index 2) as (h1 & h2 & H1 & H2 & _ & H4 & H5 & _ & H7).
  - lia.
  - vm_compute. discriminate.
  - exists h2. split; [by rewrite H1 |]. split; [exact H4 |]. split; [exact H5 | exact H7].
Defined.

(** ** The Polynomial hash code *)

Section Polynomial.

Lemma double_to_int_range (v : Z) : Int32.in_range (double_to_int v).
Proof.
  unfold double_to_int. destruct (Int32.in_rangeb v) eqn:Hr; [by apply in_rangeb_spec |].
  range_lia.
Qed.

Lemma double_to_int_exact (v : Z) : Int32.in_range v -> double_to_int v = v.
Proof. intros Hv. unfold double_to_int. by rewrite (proj2 (in_rangeb_spec v)). Qed.

Lemma poly_step_range (sum j : Z) (c : ascii) : Int32.in_range (poly_step sum j c).
Proof.
  unfold poly_step. cbv zeta.
  destruct ((char_code c - 96 =? 0) && pow_is_inf 33 j); [range_lia |].
  apply double_to_int_range.
Qed.

Lemma poly_loop_range (cs : list ascii) (j sum : Z) :
  Int32.in_range sum -> Int32.in_range (poly_loop cs j sum).
Proof.
  revert j sum. induction cs as [| c rest IH]; intros j sum Hsum; [done |].
  cbn [poly_loop]. apply IH, poly_step_range.
Qed.

Lemma pow33_finite (j : Z) : 0 <= j <= 202 -> pow_is_inf 33 j = false.
Proof.
  intros Hj. unfold pow_is_inf. apply Z.leb_gt.
  assert (0 < 33 ^ j) by (apply Z.pow_pos_nonneg; lia).
  assert (33 ^ j <= 33 ^ 202) by (apply Z.pow_le_mono_r; lia).
  assert (33 ^ 202 < 2 ^ 1024) by (vm_compute; reflexivity).
  lia.
Qed.

Lemma poly_terms_nonneg (cs : list ascii) :
  (forall c, c ∈ cs -> 96 <= char_code c) -> 0 <= poly_terms cs.
Proof.
  induction cs as [| c rest IH]; intros Hcs; simpl poly_terms; [lia |].
  assert (96 <= char_code c) by (apply Hcs, list_elem_of_here).
  assert (0 <= poly_terms rest) by (apply IH; intros; by apply Hcs, list_elem_of_further).
  assert (0 < 33 ^ Z.of_nat (length rest)) by (apply Z.pow_pos_nonneg; lia).
  nia.
Qed.

(** While the running sums stay in the [int] range every conversion is
    exact. *)
Lemma poly_loop_sums (cs : list ascii) (j sum : Z) :
  j = Z.of_nat (length cs) - 1 -> j <= 202 ->
  Forall Int32.in_range (poly_sums cs sum) ->
  poly_loop cs j sum = sum + poly_terms cs.
Proof.
  revert j sum. induction cs as [| c rest IH]; intros j sum Hj Hj' Hsums.
  - simpl. lia.
  - assert (Hj0 : j = Z.of_nat (length rest)) by (simpl length in Hj; lia).
    cbn [poly_sums] in Hsums. cbv zeta in Hsums. rewrite <- Hj0 in Hsums.
    apply Forall_cons in Hsums as [Hhead Hrest].
    cbn [poly_loop]. unfold poly_step. cbv zeta.
    rewrite pow33_finite by lia. rewrite andb_false_r.
    rewrite double_to_int_exact by done.
    rewrite IH; [| lia | lia | done].
    cbn [poly_terms]. rewrite <- Hj0. lia.
Qed.

(** With non-negative coefficients the running sums grow, so the last one
    decides whether every conversion stays in the [int] range. *)
Lemma poly_sums_nonneg (cs : list ascii) (sum : Z) :
  (forall c, c ∈ cs -> 96 <= char_code c) ->
  0 <= sum -> sum + poly_terms cs <= Int32.INT_MAX ->
  Forall Int32.in_range (poly_sums cs sum).
Proof.
  revert sum. induction cs as [| c rest IH]; intros sum Hcs Hsum Hmax; [apply Forall_nil_2 |].
  assert (Hc : 96 <= char_code c) by (apply Hcs, list_elem_of_here).
  assert (Hrest : 0 <= poly_terms rest).
  { apply poly_terms_nonneg. intros; by apply Hcs, list_elem_of_further. }
  assert (Hpow : 0 < 33 ^ Z.of_nat (length rest)) by (apply Z.pow_pos_nonneg; lia).
  cbn [poly_terms] in Hmax. cbn [poly_sums]. cbv zeta.
  apply Forall_cons. split.
  - unfold Int32.in_range, Int32.INT_MIN, Int32.INT_MAX in *. nia.
  - apply IH; [intros; by apply Hcs, list_elem_of_further | nia | lia].
Qed.

Lemma poly_terms_lowercase (cs : list ascii) :
  (forall c, c ∈ cs -> lowercase_letter c) ->
  32 * poly_terms cs <= 26 * (33 ^ Z.of_nat (length cs) - 1).
Proof.
  induction cs as [| c rest IH]; intros Hcs; [simpl; lia |].
  assert (Hc : lowercase_letter c) by (apply Hcs, list_elem_of_here).
  assert (IH' : 32 * poly_terms rest <= 26 * (33 ^ Z.of_nat (length rest) - 1)).
  { apply IH. intros; by apply Hcs, list_elem_of_further. }
  assert (Hpow : 0 < 33 ^ Z.of_nat (length rest)) by (apply Z.pow_pos_nonneg; lia).
  cbn [poly_terms]. simpl length. rewrite Nat2Z.inj_succ, Z.pow_succ_r by lia.
  unfold lowercase_letter in Hc. nia.
Qed.

End Polynomial.

(** C8 (as amended).  The Polynomial hash code is an [int].  For every key
    of at most 203 characters, whenever each running sum of the base-33
    polynomial with coefficients [char_code - 96], most significant
    character first, stays in the [int] range, [hashCodePoly] returns the
    exact value of the polynomial.  That is so for every such key of
    characters with codes from 96 up (the lowercase letters are among them)
    whose polynomial value is at most [INT_MAX], in particular for every key
    of at most 6 lowercase letters.  No key whose polynomial value is outside
    the [int] range gets that value. *)
Theorem hashCodePoly_value (key : string) :
  Int32.in_range (hashCodePoly key)
  /\ (Z.of_nat (String.length key) <= 203 ->
      Forall Int32.in_range (poly_running_sums key) ->
      hashCodePoly key = poly_value key)
  /\ (Z.of_nat (String.length key) <= 203 ->
      (forall c, c ∈ chars key -> 96 <= char_code c) ->
      poly_value key <= Int32.INT_MAX ->
      hashCodePoly key = poly_value key)
  /\ (Z.of_nat (String.length key) <= 6 ->
      (forall c, c ∈ chars key -> lowercase_letter c) ->
      hashCodePoly key = poly_value key)
  /\ (~ Int32.in_range (poly_value key) -> hashCodePoly key <> poly_value key).
Proof.
  assert (Hrange : Int32.in_range (hashCodePoly key)).
  { apply poly_loop_range. range_lia. }
  assert (Hsums : Z.of_nat (String.length key) <= 203 ->
                  Forall Int32.in_range (poly_running_sums key) ->
                  hashCodePoly key = poly_value key).
  { intros Hlen Hall. unfold hashCodePoly, poly_value.
    rewrite (poly_loop_sums (chars key) _ 0); [lia | | lia | done].
    by rewrite length_chars. }
  assert (Hgen : Z.of_nat (String.length key) <= 203 ->
                 (forall c, c ∈ chars key -> 96 <= char_code c) ->
                 poly_value key <= Int32.INT_MAX ->
                 hashCodePoly key = poly_value key).
  { intros Hlen Hcs Hmax. apply Hsums; [done |].
    apply poly_sums_nonneg; [done | lia | done]. }
  split; [done |]. split; [exact Hsums |]. split; [exact Hgen |]. split.
  - intros Hlen Hcs. apply Hgen; [lia | |].
    + intros c Hc. specialize (Hcs c Hc). unfold lowercase_letter in Hcs. lia.
    + pose proof (poly_terms_lowercase (chars key) Hcs) as Hb.
      rewrite length_chars in Hb.
      assert (33 ^ Z.of_nat (String.length key) <= 33 ^ 6)
        by (apply Z.pow_le_mono_r; lia).
      unfold poly_value, Int32.INT_MAX. lia.
  - intros Hout Heq. apply Hout. by rewrite <- Heq.
Qed.

Lemma hashCodePoly_value_witness :
  hashCodePoly "cat" = 3320 /\ hashCodePoly "x-ray" = 26648977.
Proof.
  split.
  - apply (proj1 (proj2 (proj2 (proj2 (hashCodePoly_value "cat"))))).
    + simpl. lia.
    + intros c Hc. simpl in Hc.
      repeat (apply elem_of_cons in Hc as [-> | Hc]);
        [| | | by apply elem_of_nil in Hc]; vm_compute; split; discriminate.
  - apply (proj1 (proj2 (hashCodePoly_value "x-ray"))).
    + simpl. lia.
    + repeat (apply Forall_cons; split; [vm_compute; split; discriminate |]).
      apply Forall_nil_2.
Defined.

(** C8, as stated, fails: the polynomial value of the 7-letter key
    "checker" is above [INT_MAX]; the first term, [3 * 33^6], is already out
    of the range and converts to [INT_MIN], to which the other six terms are
    added. *)
Lemma hashCodePoly_counterexample :
  hashCodePoly "checker" = -1828350926
  /\ poly_value "checker" = 4193536629
  /\ hashCodePoly "checker" <> poly_value "checker".
Proof. vm_compute. repeat split. discriminate. Qed.

(** ** Statistics *)

Section Statistics.

Lemma accumulate_loop (xs : list Z) (acc : Z) :
  Int32.in_range acc ->
  fold_left (fun a x => Int32.wrap (a + x)) xs acc = Int32.wrap (acc + sum_counts xs).
Proof.
  revert acc. induction xs as [| x xs IH]; intros acc Hacc; simpl.
  - rewrite Z.add_0_r. symmetry. by apply wrap_small.
  - rewrite IH by apply wrap_range. rewrite wrap_add_l. f_equal. lia.
Qed.

Lemma accumulate_sum (xs : list Z) : accumulate xs = Int32.wrap (sum_counts xs).
Proof.
  unfold accumulate. rewrite accumulate_loop; [done |].
  range_lia.
Qed.

Lemma sum_counts_bounds (xs : list Z) :
  (forall c, c ∈ xs -> 0 <= c) ->
  0 <= sum_counts xs /\ forall c, c ∈ xs -> c <= sum_counts xs.
Proof.
  induction xs as [| x xs IH]; intros Hpos; simpl.
  - split; [lia | by intros c ?%elem_of_nil].
  - assert (0 <= x) by (apply Hpos, list_elem_of_here).
    destruct IH as [Hsum Hle]; [intros; by apply Hpos, list_elem_of_further |].
    split; [lia |]. intros c [-> | Hc]%elem_of_cons; [lia |].
    specialize (Hle c Hc). lia.
Qed.

Lemma collisions_exact (xs : list Z) :
  (forall c, c ∈ xs -> 0 <= c <= Int32.INT_MAX) ->
  map (fun c => Z.max (Int32.wrap (c - 1)) 0) xs = map (fun c => Z.max (c - 1) 0) xs.
Proof.
  induction xs as [| x xs IH]; intros Hxs; simpl; [done |].
  assert (0 <= x <= Int32.INT_MAX) by (apply Hxs, list_elem_of_here).
  rewrite IH by (intros; by apply Hxs, list_elem_of_further).
  rewrite wrap_small; [done |].
  range_lia.
Qed.

Lemma collisions_bounds (xs : list Z) :
  (forall c, c ∈ xs -> 0 <= c) -> 0 <= collisions_total xs <= sum_counts xs.
Proof.
  unfold collisions_total.
  induction xs as [| x xs IH]; intros Hpos; simpl; [lia |].
  assert (0 <= x) by (apply Hpos, list_elem_of_here).
  assert (0 <= foldr Z.add 0 (map (fun c => Z.max (c - 1) 0) xs) <= sum_counts xs)
    by (apply IH; intros; by apply Hpos, list_elem_of_further).
  lia.
Qed.

Lemma max_loop (rest : list Z) (best : Z) :
  is_maximum (fold_left (fun b y => if b <? y then y else b) rest best) (best :: rest).
Proof.
  revert best. induction rest as [| y rest IH]; intros best; simpl.
  - split; [apply list_elem_of_here |]. intros c ->%list_elem_of_singleton. lia.
  - destruct (IH (if best <? y then y else best)) as [Hin Hmax]. split.
    + apply elem_of_cons in Hin as [-> | Hin].
      * destruct (best <? y); [apply list_elem_of_further |]; apply list_elem_of_here.
      * by do 2 apply list_elem_of_further.
    + intros c Hc.
      assert (Hbest : best <= (if best <? y then y else best))
        by (destruct (Z.ltb_spec best y); lia).
      assert (Hy : y <= (if best <? y then y else best))
        by (destruct (Z.ltb_spec best y); lia).
      pose proof (Hmax _ (list_elem_of_here _ _)) as Hfirst.
      apply elem_of_cons in Hc as [-> | [-> | Hc]%elem_of_cons]; [lia | lia |].
      apply Hmax. by apply list_elem_of_further.
Qed.

Lemma max_element_Ok (xs : list Z) :
  xs <> [] -> exists m, max_element xs = Ok m /\ is_maximum m xs.
Proof.
  destruct xs as [| x rest]; [done |]. intros _. eexists. split; [reflexivity |].
  apply max_loop.
Qed.

Lemma collisions_sum (xs : list Z) :
  (forall c, c ∈ xs -> 0 <= c) -> sum_counts xs <= Int32.INT_MAX ->
  accumulate (map (fun c => Z.max (Int32.wrap (c - 1)) 0) xs) = collisions_total xs.
Proof.
  intros Hpos Hsum.
  destruct (sum_counts_bounds xs Hpos) as [Hsum0 Hle].
  pose proof (collisions_bounds xs Hpos) as Hcoll.
  rewrite collisions_exact.
  - rewrite accumulate_sum. unfold collisions_total in *. apply wrap_small.
    unfold sum_counts, Int32.in_range, Int32.INT_MIN, Int32.INT_MAX in *. lia.
  - intros c Hin. specialize (Hle c Hin). specialize (Hpos c Hin). lia.
Qed.

End Statistics.

(** C9.  For every table with [bucket_count = n > 0] whose counters are
    non-negative with a sum within the [int] range, [printStats] reports:
    the size [n]; the total, the sum of the counters; the load factor, the
    [double] quotient of the total by [n]; the collisions, the sum over the
    buckets of [max (count - 1, 0)]; and the largest counter.  With 5 buckets
    and counters (1, 1, 3, 1, 1) it reports 7 inserts, load factor 1.4,
    2 collisions and a largest bucket of 3. *)
#[warnings="-inexact-float"] Theorem printStats_report (h : HashMap) :
  wf h -> 0 < n h ->
  (forall c, c ∈ inserts h -> 0 <= c) ->
  sum_counts (inserts h) <= Int32.INT_MAX ->
  exists st,
    printStats h = Ok st
    /\ stat_size st = n h
    /\ stat_inserts st = sum_counts (inserts h)
    /\ stat_load_factor st
       = PrimFloat.div (int_to_double (sum_counts (inserts h))) (int_to_double (n h))
    /\ stat_collisions st = collisions_total (inserts h)
    /\ is_maximum (stat_max_bucket st) (inserts h)
    /\ printStats stats_sample
       = Ok {| stat_size := 5; stat_inserts := 7; stat_load_factor := 1.4;
               stat_collisions := 2; stat_max_bucket := 3 |}.
Proof.
  intros [Ht Hc] Hn Hpos Hsum.
  destruct (sum_counts_bounds (inserts h) Hpos) as [Hsum0 _].
  destruct (max_element_Ok (inserts h)) as (m & Hm & Hmax).
  { intros Hnil. rewrite Hnil in Hc. simpl in Hc. lia. }
  assert (Hacc : accumulate (inserts h) = sum_counts (inserts h)).
  { rewrite accumulate_sum. apply wrap_small.
    range_lia. }
  unfold printStats.
  assert ((Z.of_nat (length (inserts h)) <? n h) = false) as -> by (apply Z.ltb_ge; lia).
  rewrite take_ge by lia. rewrite Hm. cbn [bind].
  eexists. split; [reflexivity |].
  cbn [stat_size stat_inserts stat_load_factor stat_collisions stat_max_bucket].
  split; [done |]. split; [done |]. split; [by rewrite Hacc |].
  split; [by apply collisions_sum |]. split; [done |].
  - vm_compute. reflexivity.
Qed.

Lemma printStats_report_witness :
  (let* t := resizeTable empty_map 5 in put_all ["a"; "b"; "c"; "d"; "e"; "g"; "l"] t)
  = Ok stats_sample
  /\ exists st,
       printStats stats_sample = Ok st
       /\ stat_inserts st = 7
       /\ stat_collisions st = 2
       /\ is_maximum (stat_max_bucket st) [1; 1; 3; 1; 1].
Proof.
  split; [reflexivity |].
  destruct (printStats_report stats_sample) as (st & H1 & _ & H3 & _ & H5 & H6 & _).
  - split; reflexivity.
  - cbn. lia.
  - intros c Hc. simpl in Hc.
    repeat (apply elem_of_cons in Hc as [-> | Hc]); try lia. by apply elem_of_nil in Hc.
  - vm_compute. discriminate.
  - exists st. split; [exact H1 |]. split; [exact H3 |]. split; [exact H5 | exact H6].
Defined.

(** * The rest of the program *)

(** ** What [erase] returns *)

Section Erase_results.

Lemma erase_Ok_inv (h h' : HashMap) (key : string) :
  erase h key = Ok h' ->
  (h' = h /\ find h key = Ok 0)
  \/ exists i bucket count,
       0 < i /\ find h key = Ok i /\ hash h key = Ok i
       /\ table h !! Z.to_nat i = Some bucket /\ key ∈ bucket
       /\ inserts h !! Z.to_nat i = Some count
       /\ h' = erased h i bucket count key.
Proof.
  unfold erase. destruct (find h key) as [v |] eqn:Hf; [simpl | discriminate].
  destruct (Z.eqb_spec v 0) as [-> | Hv]; simpl; [intros [= <-]; by left |].
  destruct (at_index (table h) v) as [bucket |] eqn:Hb; [simpl | discriminate].
  destruct (at_index (inserts h) v) as [count |] eqn:Hc; [simpl | discriminate].
  intros [= <-]. right.
  apply at_index_Ok in Hb as [Hv0 Hb]. apply at_index_Ok in Hc as [_ Hc].
  destruct (find_Ok_inv h key v Hf) as (i & bucket' & Hh & Hi & Hb' & [[Hin ->] | [_ ->]]);
    [| lia].
  rewrite Hb in Hb'. injection Hb' as <-.
  exists i, bucket, count. repeat (split; [done || lia |]). done.
Qed.

Lemma filter_ne_absent (bucket : list string) (key : string) :
  key ∉ bucket -> filter (λ x, x ≠ key) bucket = bucket.
Proof.
  induction bucket as [| x bucket IH]; [done |].
  intros [Hne Hnot]%not_elem_of_cons. rewrite filter_cons_True by done.
  by rewrite IH.
Qed.

Lemma filter_ne_length (bucket : list string) (key : string) :
  NoDup bucket -> key ∈ bucket ->
  Z.of_nat (length (filter (λ x, x ≠ key) bucket)) = Z.of_nat (length bucket) - 1.
Proof.
  induction bucket as [| x bucket IH]; [by intros _ ?%elem_of_nil |].
  intros [Hx Hnd]%NoDup_cons Hin. destruct (decide (x = key)) as [-> | Hne].
  - rewrite filter_cons_False by (intros Hneq; by apply Hneq).
    rewrite filter_ne_absent by done. simpl length. lia.
  - rewrite filter_cons_True by done. simpl length.
    apply elem_of_cons in Hin as [-> | Hin]; [done |].
    specialize (IH Hnd Hin). lia.
Qed.

Lemma find_same_chains (h g : HashMap) (key : string) :
  HashCodeMethod g = HashCodeMethod h -> n g = n h ->
  (forall i bucket, hash h key = Ok i -> 0 <= i -> table h !! Z.to_nat i = Some bucket ->
     exists bucket', table g !! Z.to_nat i = Some bucket' /\ (key ∈ bucket' <-> key ∈ bucket)) ->
  length (table g) = length (table h) ->
  find g key = find h key.
Proof.
  intros Hm Hn Hsame Hlen. unfold find. rewrite (hash_same_shape h g) by done.
  destruct (hash h key) as [i |] eqn:Hh; [simpl | done].
  unfold at_index. destruct (Z.ltb_spec i 0); [done |].
  destruct (table h !! Z.to_nat i) as [bucket |] eqn:Hb.
  - destruct (Hsame i bucket eq_refl ltac:(lia) Hb) as (bucket' & -> & Hiff). simpl.
    destruct (bool_decide_reflect (key ∈ bucket')), (bool_decide_reflect (key ∈ bucket));
      tauto.
  - apply lookup_ge_None in Hb. rewrite (proj2 (lookup_ge_None (table g) _)); [done | lia].
Qed.

End Erase_results.

(** ** [put] and [erase] among the other keys *)

Section Other_keys.

Lemma find_appended_other (h : HashMap) (i : Z) (bucket : list string) (count : Z)
    (key key' : string) :
  table h !! Z.to_nat i = Some bucket -> key' <> key ->
  find (appended h i bucket count key) key' = find h key'.
Proof.
  intros Hb Hne. apply find_same_chains; [done | done | | simpl; by rewrite length_insert].
  intros j l _ Hj Hl. destruct (decide (Z.to_nat j = Z.to_nat i)) as [Heq | Hneq].
  - rewrite Heq in *. rewrite Hb in Hl. injection Hl as <-.
    exists (bucket ++ [key]). split; [by apply table_appended_here |].
    rewrite elem_of_app, list_elem_of_singleton. tauto.
  - exists l. split; [by rewrite table_appended_other | done].
Qed.

Lemma find_erased_other (h : HashMap) (i : Z) (bucket : list string) (count : Z)
    (key key' : string) :
  table h !! Z.to_nat i = Some bucket -> key' <> key ->
  find (erased h i bucket count key) key' = find h key'.
Proof.
  intros Hb Hne. apply find_same_chains; [done | done | | simpl; by rewrite length_insert].
  intros j l _ Hj Hl. destruct (decide (Z.to_nat j = Z.to_nat i)) as [Heq | Hneq].
  - rewrite Heq in *. rewrite Hb in Hl. injection Hl as <-.
    exists (filter (λ x, x ≠ key) bucket). split.
    + simpl. apply list_lookup_insert_eq. by apply lookup_lt_Some in Hb.
    + rewrite list_elem_of_filter. tauto.
  - exists l. split; [| done]. simpl. by rewrite list_lookup_insert_ne.
Qed.

End Other_keys.

(** X1.  A [put] that returns leaves every other key where it was: [find]
    answers for any other key as before, and a key stored in a bucket is
    still stored in that bucket. *)
Theorem put_keeps_other_keys (h h1 : HashMap) (key key' : string) :
  put h key = Ok h1 ->
  (key' <> key -> find h1 key' = find h key')
  /\ (forall i, stored_in h i key' -> stored_in h1 i key').
Proof.
  intros [[-> _] | (i & bucket & count & -> & _ & _ & Hb & _)]%put_Ok_inv; [done |].
  split; [by apply find_appended_other |].
  intros j (l & Hl & Hin). destruct (decide (j = Z.to_nat i)) as [-> | Hj].
  - rewrite Hb in Hl. injection Hl as <-. exists (bucket ++ [key]).
    split; [by apply table_appended_here | apply elem_of_app; by left].
  - exists l. split; [by rewrite table_appended_other | done].
Qed.

Lemma put_keeps_other_keys_witness :
  find cat_dog "dog" = Ok 0
  /\ exists h1, put cat_dog "emu" = Ok h1 /\ find h1 "dog" = Ok 0.
Proof.
  split; [reflexivity |].
  eexists. split; [reflexivity |].
  rewrite (proj1 (put_keeps_other_keys cat_dog _ "emu" "dog" eq_refl)); [reflexivity |].
  discriminate.
Defined.

(** X2.  When [find] meets the key in a bucket of non-zero index, [erase]
    returns the table with the key filtered out of that chain and that
    counter decremented; [find] then returns [-1] for the key and answers
    for every other key as before; size and method are unchanged. *)
Theorem erase_removes_key (h : HashMap) (key : string) (i : Z) :
  wf h -> find h key = Ok i -> 0 < i ->
  exists bucket count,
    table h !! Z.to_nat i = Some bucket
    /\ inserts h !! Z.to_nat i = Some count
    /\ erase h key = Ok (erased h i bucket count key)
    /\ find (erased h i bucket count key) key = Ok (-1)
    /\ ~ stored_in (erased h i bucket count key) (Z.to_nat i) key
    /\ (forall key', key' <> key ->
          find (erased h i bucket count key) key' = find h key').
Proof.
  intros Hwf Hf Hi.
  destruct (find_Ok_inv h key i Hf) as (j & bucket & Hh & Hj & Hb & [[Hin <-] | [_ ->]]);
    [| lia].
  destruct (lookup_lt_is_Some_2 (inserts h) (Z.to_nat i)) as [count Hc].
  { apply lookup_lt_Some in Hb. destruct Hwf. lia. }
  exists bucket, count. split; [done |]. split; [done |].
  assert (Hb' : table (erased h i bucket count key) !! Z.to_nat i
                = Some (filter (λ x, x ≠ key) bucket)).
  { simpl. apply list_lookup_insert_eq. by apply lookup_lt_Some in Hb. }
  assert (Hgone : key ∉ filter (λ x, x ≠ key) bucket).
  { intros [Hne _]%list_elem_of_filter. done. }
  split; [| split; [| split]].
  - unfold erase. rewrite Hf. cbn [bind]. destruct (Z.eqb_spec i 0); [lia |]. simpl negb.
    cbn iota. rewrite (proj2 (at_index_Ok (table h) i bucket)) by done. cbn [bind].
    rewrite (proj2 (at_index_Ok (inserts h) i count)) by done. done.
  - rewrite (find_in_bucket _ key i (filter (λ x, x ≠ key) bucket)); try done.
    by rewrite bool_decide_eq_false_2.
  - intros (b & Hb'' & Hin'). rewrite Hb' in Hb''. by injection Hb'' as <-.
  - intros key' Hne. by apply find_erased_other.
Qed.

Lemma erase_removes_key_witness :
  find cat_dog "cat" = Ok 1
  /\ exists h2, erase cat_dog "cat" = Ok h2 /\ find h2 "cat" = Ok (-1) /\ find h2 "dog" = Ok 0.
Proof.
  split; [reflexivity |].
  destruct (erase_removes_key cat_dog "cat" 1) as (bucket & count & _ & _ & H3 & H4 & _ & H6).
  - split; reflexivity.
  - reflexivity.
  - lia.
  - eexists. split; [exact H3 |]. split; [exact H4 |].
    rewrite (H6 "dog"); [reflexivity | discriminate].
Defined.

(** X3.  Round trip: for a key that is not in the chain of its bucket, when
    that bucket's index is not 0 and its counter is an [int], [put] followed
    by [erase] of the key gives back exactly the table it started from. *)
Theorem put_then_erase (h : HashMap) (key : string) (i : Z) (count : Z) :
  wf h -> hash h key = Ok i -> 0 < i < n h ->
  ~ stored_in h (Z.to_nat i) key ->
  inserts h !! Z.to_nat i = Some count -> Int32.in_range count ->
  exists h1, put h key = Ok h1 /\ erase h1 key = Ok h.
Proof.
  intros Hwf Hh Hi Hnew Hc Hrange.
  destruct (wf_cells h i Hwf ltac:(lia)) as (bucket & count' & Hb & Hc').
  rewrite Hc in Hc'. injection Hc' as <-.
  assert (Hout : key ∉ bucket) by (intros Hin; apply Hnew; by exists bucket).
  exists (appended h i bucket count key). split.
  { rewrite (put_in_bucket h key i bucket count) by (done || lia).
    by rewrite bool_decide_eq_false_2. }
  pose proof (table_appended_here h i bucket count key Hb) as Hb1.
  assert (Hf : find (appended h i bucket count key) key = Ok i).
  { apply find_stored_in; [by rewrite hash_appended | lia |].
    exists (bucket ++ [key]). split; [done |].
    apply elem_of_app. right. by apply list_elem_of_singleton. }
  unfold erase. rewrite Hf. cbn [bind]. destruct (Z.eqb_spec i 0); [lia |]. simpl negb.
  cbn iota. rewrite (proj2 (at_index_Ok _ i (bucket ++ [key]))) by (split; [lia | done]).
  cbn [bind].
  rewrite (proj2 (at_index_Ok (inserts (appended h i bucket count key)) i
                    (Int32.wrap (count + 1)))).
  2:{ split; [lia |]. simpl. apply list_lookup_insert_eq. by apply lookup_lt_Some in Hc. }
  cbn [bind]. f_equal. destruct h as [m size0 tbl cnt]. unfold appended. simpl in *.
  f_equal.
  - rewrite list_insert_insert_eq, filter_app, filter_ne_absent by done.
    rewrite filter_cons_False by (intros Hneq; by apply Hneq).
    rewrite filter_nil, app_nil_r. by apply list_insert_id.
  - rewrite list_insert_insert_eq.
    replace (Int32.wrap (Int32.wrap (count + 1) - 1)) with count; [by apply list_insert_id |].
    replace (Int32.wrap (count + 1) - 1) with (Int32.wrap (count + 1) + -1) by lia.
    rewrite wrap_add_l. replace (count + 1 + -1) with count by lia.
    symmetry. by apply wrap_small.
Qed.

Lemma put_then_erase_witness :
  exists h1, put cat_dog "fox" = Ok h1 /\ erase h1 "fox" = Ok cat_dog.
Proof.
  apply (put_then_erase cat_dog "fox" 3 0).
  - split; reflexivity.
  - reflexivity.
  - cbn. lia.
  - intros (b & Hb & Hin). vm_compute in Hb. injection Hb as <-. by apply elem_of_nil in Hin.
  - reflexivity.
  - vm_compute. split; discriminate.
Defined.

(** ** Invariants along the operations *)

Section Kept_by_put.

Variable P : HashMap -> Prop.
Hypothesis P_put : forall h key h', P h -> put h key = Ok h' -> P h'.

Lemma put_all_keeps (keys : list string) (g g' : HashMap) :
  P g -> put_all keys g = Ok g' -> P g'.
Proof.
  revert g. induction keys as [| key rest IH]; intros g Hg; simpl; [by intros [= <-] |].
  destruct (put g key) as [g1 |] eqn:Hput; [simpl | discriminate].
  apply IH. by apply (P_put g key).
Qed.

Lemma replay_keeps (old : list (list string)) (g g' : HashMap) :
  P g -> replay old g = Ok g' -> P g'.
Proof.
  revert g. induction old as [| curList rest IH]; intros g Hg; simpl; [by intros [= <-] |].
  destruct (put_all curList g) as [g1 |] eqn:Hput; [simpl | discriminate].
  apply IH. by apply (put_all_keeps curList g).
Qed.

Lemma resizeTable_keeps (h h' : HashMap) (s : Z) :
  (0 <= s -> P (fresh_table (HashCodeMethod h) s)) -> resizeTable h s = Ok h' -> P h'.
Proof.
  intros Hfresh. unfold resizeTable. destruct (Z.ltb_spec s 0); [discriminate |].
  destruct (Z.of_nat (length (table h)) <? n h); [discriminate |].
  apply replay_keeps. by apply Hfresh.
Qed.

End Kept_by_put.

Section Consistency.

Lemma chains_nodup_appended (h : HashMap) (i : Z) (bucket : list string) (count : Z)
    (key : string) :
  chains_nodup h -> table h !! Z.to_nat i = Some bucket -> key ∉ bucket ->
  chains_nodup (appended h i bucket count key).
Proof.
  intros Hnd Hb Hnew j l Hl. destruct (decide (j = Z.to_nat i)) as [-> | Hj].
  - rewrite (table_appended_here h i bucket count key Hb) in Hl. injection Hl as <-.
    apply NoDup_app. split; [by apply (Hnd _ _ Hb) |]. split; [| apply NoDup_singleton].
    intros x Hx ->%list_elem_of_singleton. done.
  - rewrite table_appended_other in Hl by done. by apply (Hnd j).
Qed.

Lemma consistent_put (h : HashMap) (key : string) (h' : HashMap) :
  consistent h -> put h key = Ok h' -> consistent h'.
Proof.
  intros (Hwf & Hc & Hnd)
    [[-> _] | (i & bucket & count & -> & _ & _ & Hb & Hcount & Hnew)]%put_Ok_inv;
    [done |].
  split; [by apply wf_appended |]. split; [| by apply chains_nodup_appended].
  assert (count = Int32.wrap (Z.of_nat (length bucket))) as ->.
  { specialize (Hc _ _ Hb). rewrite Hcount in Hc. by injection Hc. }
  by apply counted_appended.
Qed.

Lemma consistent_fresh (m : HCM) (s : Z) : 0 <= s -> consistent (fresh_table m s).
Proof.
  intros Hs. destruct (rehashed_fresh m s Hs) as (Hwf & _ & Hc).
  split; [done |]. split; [done |].
  intros i bucket [-> _]%lookup_replicate. constructor.
Qed.

Lemma consistent_erased (h : HashMap) (i : Z) (bucket : list string) (count : Z)
    (key : string) :
  consistent h -> table h !! Z.to_nat i = Some bucket -> key ∈ bucket ->
  inserts h !! Z.to_nat i = Some count ->
  consistent (erased h i bucket count key).
Proof.
  intros (Hwf & Hc & Hnd) Hb Hin Hcount.
  assert (Hhere : table (erased h i bucket count key) !! Z.to_nat i
                  = Some (filter (λ x, x ≠ key) bucket)).
  { simpl. apply list_lookup_insert_eq. by apply lookup_lt_Some in Hb. }
  split; [| split].
  - unfold wf, erased. simpl. by rewrite !length_insert.
  - intros j l Hl. destruct (decide (j = Z.to_nat i)) as [-> | Hj].
    + rewrite Hhere in Hl. injection Hl as <-. simpl.
      rewrite list_lookup_insert_eq by (by apply lookup_lt_Some in Hcount).
      f_equal. specialize (Hc _ _ Hb). rewrite Hcount in Hc. injection Hc as ->.
      rewrite (filter_ne_length bucket key) by (done || by apply (Hnd _ _ Hb)).
      replace (Int32.wrap (Z.of_nat (length bucket)) - 1)
        with (Int32.wrap (Z.of_nat (length bucket)) + -1) by lia.
      rewrite wrap_add_l. f_equal; lia.
    + simpl in Hl. rewrite list_lookup_insert_ne in Hl by done. simpl.
      rewrite list_lookup_insert_ne by done. by apply Hc.
  - intros j l Hl. destruct (decide (j = Z.to_nat i)) as [-> | Hj].
    + rewrite Hhere in Hl. injection Hl as <-. apply NoDup_filter. by apply (Hnd _ _ Hb).
    + simpl in Hl. rewrite list_lookup_insert_ne in Hl by done. by apply (Hnd j).
Qed.

Lemma consistent_erase (h : HashMap) (key : string) (h' : HashMap) :
  consistent h -> erase h key = Ok h' -> consistent h'.
Proof.
  intros Hh [[-> _] | (i & bucket & count & _ & _ & _ & Hb & Hin & Hc & ->)]%erase_Ok_inv;
    [done |].
  by apply consistent_erased.
Qed.

Lemma consistent_method (h : HashMap) (m : string) :
  consistent h -> consistent (setHashCodeMethod h m).
Proof.
  destruct (setHashCodeMethod_arrays h m) as (Hn & Ht & Hc).
  unfold consistent, wf, counted, chains_nodup. by rewrite Hn, Ht, Hc.
Qed.

End Consistency.

(** X4.  Every table the commands can reach from the constructor's (by
    [resizeTable], [put], [erase] and [setHashCodeMethod], in any order) has
    [n >= 0] buckets and as many counters, holds no key twice in one chain,
    and has every counter equal to the number of keys of its chain (as a
    32-bit [int]): the counters are the chains' lengths, [erase] included. *)
Theorem reachable_consistent (h : HashMap) :
  reachable h ->
  0 <= n h
  /\ Z.of_nat (length (table h)) = n h
  /\ Z.of_nat (length (inserts h)) = n h
  /\ (forall i bucket, table h !! i = Some bucket ->
        NoDup bucket
        /\ inserts h !! i = Some (Int32.wrap (Z.of_nat (length bucket)))).
Proof.
  intros Hr. assert (Hc : consistent h).
  { induction Hr as [| h s h' _ _ Hres | h key h' _ IH Hp | h key h' _ IH He | h m _ IH].
    - split; [by split |]. split; intros i bucket Hb; simpl in Hb; by rewrite lookup_nil in Hb.
    - apply (resizeTable_keeps consistent consistent_put h h' s); [| done].
      apply consistent_fresh.
    - by apply (consistent_put h key).
    - by apply (consistent_erase h key).
    - by apply consistent_method. }
  destruct Hc as ([Ht Hi] & Hcount & Hnd).
  split; [lia |]. split; [done |]. split; [done |].
  intros i bucket Hb. split; [by apply (Hnd i) | by apply Hcount].
Qed.

Lemma reachable_consistent_witness :
  reachable cat_dog /\ inserts cat_dog !! 1%nat = Some 1.
Proof.
  assert (Hr : reachable cat_dog).
  { apply (reach_put {| HashCodeMethod := simple; n := 5;
                        table := [[]; ["cat"]; []; []; []];
                        inserts := [0; 1; 0; 0; 0] |} "dog"); [| reflexivity].
    apply (reach_put (fresh_table simple 5) "cat"); [| reflexivity].
    apply (reach_resize empty_map 5); [apply reach_new | reflexivity]. }
  split; [exact Hr |].
  destruct (reachable_consistent cat_dog Hr) as (_ & _ & _ & Hcount).
  destruct (Hcount 1%nat ["cat"] eq_refl) as [_ H1]. exact H1.
Defined.

(** ** Placement, size and method *)

Section Placement.

Lemma placed_erased (h : HashMap) (i : Z) (bucket : list string) (count : Z) (key : string) :
  placed h -> table h !! Z.to_nat i = Some bucket -> placed (erased h i bucket count key).
Proof.
  intros Hp Hb j l Hl. destruct (decide (j = Z.to_nat i)) as [-> | Hj].
  - simpl in Hl. rewrite list_lookup_insert_eq in Hl by (by apply lookup_lt_Some in Hb).
    injection Hl as <-. destruct (Hp _ _ Hb) as [Hnd Hkeys]. split.
    + by apply NoDup_filter.
    + intros k [_ Hk]%list_elem_of_filter.
      rewrite (hash_same_shape h (erased h i bucket count key)) by done. by apply Hkeys.
  - simpl in Hl. rewrite list_lookup_insert_ne in Hl by done.
    destruct (Hp _ _ Hl) as [Hnd Hkeys]. split; [done |].
    intros k Hk. rewrite (hash_same_shape h (erased h i bucket count key)) by done.
    by apply Hkeys.
Qed.

Lemma resizeTable_returns (h : HashMap) (m : Z) :
  wf h -> 0 < m ->
  (forall key, stored h key -> hash_valid (fresh_table (HashCodeMethod h) m) key) ->
  exists h',
    resizeTable h m = Ok h'
    /\ rehashed h' /\ n h' = m /\ HashCodeMethod h' = HashCodeMethod h
    /\ (forall key, stored h' key <-> stored h key).
Proof.
  intros Hwf Hm Hvalid.
  destruct (replay_rehashed (table h) (fresh_table (HashCodeMethod h) m))
    as (h' & Hreplay & Hre & Hn' & Hm' & Hs').
  { apply rehashed_fresh. lia. }
  { intros k Hk. apply Hvalid. by apply stored_concat. }
  exists h'. split.
  { unfold resizeTable. destruct (Z.ltb_spec m 0); [lia |].
    by destruct (wf_old_buckets h Hwf) as [-> ->]. }
  simpl in Hn', Hm'. split; [done |]. split; [done |]. split; [done |].
  intros key. rewrite Hs'. split.
  - intros [Hnone | Hin]; [by apply fresh_stores_nothing in Hnone | by apply stored_concat].
  - intros Hs. right. by apply stored_concat.
Qed.

End Placement.

(** X5.  Whenever [resizeTable] returns, whatever the table was before
    (also one left with misplaced or doubled keys by a change of method),
    every key of the new table is in the chain of the bucket it hashes to
    and occurs once in the whole table; and [erase] keeps a table in that
    state. *)
Theorem placement_restored (h h' : HashMap) :
  (forall s, resizeTable h s = Ok h' -> placed h' /\ NoDup (concat (table h')))
  /\ (forall key, placed h -> erase h key = Ok h' ->
        placed h' /\ NoDup (concat (table h'))).
Proof.
  split.
  - intros s Hr. assert (Hp : placed h'); [| split; [done | by apply placed_NoDup]].
    apply (resizeTable_keeps placed (fun g key g' Hg Hput => put_placed g g' key Hg Hput)
             h h' s); [| done].
    intros _. apply placed_fresh.
  - intros key Hp He. assert (Hp' : placed h'); [| split; [done | by apply placed_NoDup]].
    apply erase_Ok_inv in He as [[-> _] | (i & bucket & count & _ & _ & _ & Hb & _ & _ & ->)];
      [done |].
    by apply placed_erased.
Qed.

Lemma placement_restored_witness :
  ~ NoDup (concat (table dog_twice))
  /\ exists h', resizeTable dog_twice 5 = Ok h' /\ NoDup (concat (table h')).
Proof.
  split.
  - intros Hnd. simpl in Hnd. apply NoDup_cons in Hnd as [Hnot _].
    apply Hnot, list_elem_of_here.
  - eexists. split; [reflexivity |].
    by apply (proj1 (placement_restored dog_twice _) 5 eq_refl).
Defined.

(** X6.  [size] is the number of buckets, not of keys: it is 0 for a new
    object, it is the argument after a [resizeTable] that returns, and
    [put], [erase] and [setHashCodeMethod] never change it. *)
Theorem size_is_bucket_count (h h' : HashMap) :
  size empty_map = 0
  /\ (forall s, resizeTable h s = Ok h' -> size h' = s)
  /\ (forall key, put h key = Ok h' -> size h' = size h)
  /\ (forall key, erase h key = Ok h' -> size h' = size h)
  /\ (forall m, size (setHashCodeMethod h m) = size h).
Proof.
  split; [done |]. split; [| split; [| split]].
  - intros s Hr. by apply resizeTable_shape in Hr as (Hn & _).
  - intros key Hp. by apply put_shape in Hp as (Hn & _).
  - intros key [[-> _] | (i & bucket & count & _ & _ & _ & _ & _ & _ & ->)]%erase_Ok_inv;
      done.
  - intros m. by destruct (setHashCodeMethod_arrays h m) as (Hn & _).
Qed.

Lemma size_is_bucket_count_witness :
  exists h', put (fresh_table simple 7) "cat" = Ok h' /\ size h' = 7.
Proof.
  eexists. split; [reflexivity |].
  by rewrite (proj1 (proj2 (proj2 (size_is_bucket_count (fresh_table simple 7) _)))
                "cat" eq_refl).
Defined.

(** X7.  [setHashCodeMethod] selects the method named "poly", "simple",
    "cyclic" or "custom" and, for any other name (the names are compared as
    they are, case included), returns the table as it was; in every case the
    size, the chains and the counters are untouched. *)
Theorem setHashCodeMethod_names (h : HashMap) (m : string) :
  (m = "poly"%string -> HashCodeMethod (setHashCodeMethod h m) = poly)
  /\ (m = "simple"%string -> HashCodeMethod (setHashCodeMethod h m) = simple)
  /\ (m = "cyclic"%string -> HashCodeMethod (setHashCodeMethod h m) = cyclic)
  /\ (m = "custom"%string -> HashCodeMethod (setHashCodeMethod h m) = custom)
  /\ (m <> "poly"%string -> m <> "simple"%string -> m <> "cyclic"%string ->
      m <> "custom"%string -> setHashCodeMethod h m = h)
  /\ n (setHashCodeMethod h m) = n h
  /\ table (setHashCodeMethod h m) = table h
  /\ inserts (setHashCodeMethod h m) = inserts h.
Proof.
  repeat (split; [by intros -> |]).
  split; [| apply setHashCodeMethod_arrays].
  intros H1 H2 H3 H4. unfold setHashCodeMethod.
  by rewrite (proj2 (String.eqb_neq _ _) H1), (proj2 (String.eqb_neq _ _) H2),
    (proj2 (String.eqb_neq _ _) H3), (proj2 (String.eqb_neq _ _) H4).
Qed.

Lemma setHashCodeMethod_names_witness :
  HashCodeMethod (setHashCodeMethod cat_dog "cyclic") = cyclic
  /\ setHashCodeMethod cat_dog "POLY" = cat_dog.
Proof.
  destruct (setHashCodeMethod_names cat_dog "cyclic") as (_ & _ & H3 & _).
  destruct (setHashCodeMethod_names cat_dog "POLY") as (_ & _ & _ & _ & H5 & _).
  split; [by apply H3 | apply H5; discriminate].
Defined.

(** X8.  On a table of 0 buckets (the state of a new object, before any
    [resizeTable]) no key can be looked up, stored or erased: [find], [put]
    and [erase] all fail where [find] fails, and under the Simple and Cyclic
    methods the failure is the remainder by zero of [hashCompress]. *)
Theorem no_buckets_no_hashing (h : HashMap) (key : string) :
  n h = 0 ->
  (exists e, find h key = Fail e /\ put h key = Fail e /\ erase h key = Fail e)
  /\ (HashCodeMethod h = simple \/ HashCodeMethod h = cyclic ->
      find h key = Fail DivisionByZero).
Proof.
  intros Hn. split.
  - destruct (find h key) as [v |] eqn:Hf.
    + apply find_Ok_inv in Hf as (i & _ & Hh & _). by apply hash_Ok_size in Hh.
    + exists e. split; [done |]. unfold put, erase. by rewrite Hf.
  - intros Hm. unfold find, hash, hashCompress. rewrite Hn.
    by destruct Hm as [-> | ->].
Qed.

Lemma no_buckets_no_hashing_witness :
  find empty_map "cat" = Fail DivisionByZero /\ put empty_map "cat" = Fail DivisionByZero.
Proof.
  destruct (no_buckets_no_hashing empty_map "cat" eq_refl) as [(e & Hf & Hp & _) Hd].
  rewrite Hd in Hf by (by left). injection Hf as <-. split; [by apply Hd; left | exact Hp].
Defined.

(** ** [deleteTable] and the end of [resizeTable] *)

(** X9.  After a [resizeTable(0)] the object holds a non-null table of 0
    buckets; the next [resizeTable(s)] with [s > 0] then ends in
    [deleteTable(oldTable, 0)], whose [s == 0] default takes the new [n]:
    it reads [s] cells of the old array, which has none. *)
Theorem resize_after_resize_zero (h : HashMap) (s : Z) :
  wf h -> n h = 0 -> 0 < s ->
  resizeTable h s = Ok (fresh_table (HashCodeMethod h) s)
  /\ deleteTable (fresh_table (HashCodeMethod h) s) (Some (table h)) (n h)
     = Fail OutOfBounds
  /\ resizeTable_deleting true h s = Fail OutOfBounds.
Proof.
  intros Hwf Hn Hs.
  assert (Hempty : table h = []).
  { destruct Hwf as [Ht _]. rewrite Hn in Ht. destruct (table h); [done | simpl in Ht; lia]. }
  assert (Hr : resizeTable h s = Ok (fresh_table (HashCodeMethod h) s)).
  { unfold resizeTable. destruct (Z.ltb_spec s 0); [lia |]. by rewrite Hempty, Hn. }
  assert (Hd : deleteTable (fresh_table (HashCodeMethod h) s) (Some (table h)) (n h)
               = Fail OutOfBounds).
  { unfold deleteTable. rewrite Hn, Hempty. destruct s; [lia | reflexivity | lia]. }
  split; [done |]. split; [done |].
  unfold resizeTable_deleting. rewrite Hr. cbn [bind]. by rewrite Hd.
Qed.

Lemma resize_after_resize_zero_witness :
  resizeTable (fresh_table simple 3) 0 = Ok (fresh_table simple 0)
  /\ resizeTable_deleting true (fresh_table simple 0) 5 = Fail OutOfBounds.
Proof.
  split; [reflexivity |].
  apply (resize_after_resize_zero (fresh_table simple 0) 5); [split |..]; (reflexivity || lia).
Defined.

(** X10.  In every other case the [deleteTable] calls read only cells the
    array has: on a table with its [n] buckets the destructor returns, and
    when the old table has at least one bucket, or was never allocated, or
    the new size is not positive, the whole [resizeTable] does exactly what
    its replay does. *)
Theorem deleteTable_in_bounds (h : HashMap) (s : Z) (allocated : bool) :
  wf h ->
  destructor h = Ok tt
  /\ (allocated = false \/ 0 < n h \/ s <= 0 ->
      resizeTable_deleting allocated h s = resizeTable h s).
Proof.
  intros Hwf. pose proof Hwf as [Ht _]. split.
  - unfold destructor, deleteTable. simpl.
    destruct (Z.ltb_spec (Z.of_nat (length (table h))) (n h)); [lia | done].
  - intros Hcase. unfold resizeTable_deleting.
    destruct (resizeTable h s) as [h' |] eqn:Hr; [cbn [bind] | done].
    destruct allocated; [| done].
    assert (Hok : deleteTable h' (Some (table h)) (n h) = Ok tt); [| by rewrite Hok].
    apply resizeTable_shape in Hr as (Hn' & _). unfold deleteTable.
    destruct (Z.eqb_spec (n h) 0) as [Hz | Hnz].
    + destruct Hcase as [Hf | [Hpos | Hneg]]; [done | lia |].
      destruct (Z.ltb_spec (Z.of_nat (length (table h))) (n h')); [lia | done].
    + destruct (Z.ltb_spec (Z.of_nat (length (table h))) (n h)); [lia | done].
Qed.

Lemma deleteTable_in_bounds_witness :
  destructor cat_dog = Ok tt
  /\ resizeTable_deleting true cat_dog 3 = resizeTable cat_dog 3.
Proof.
  destruct (deleteTable_in_bounds cat_dog 3 true) as [H1 H2]; [split; reflexivity |].
  split; [exact H1 |]. apply H2. right. left. cbn. lia.
Defined.

(** ** The "rehash" command *)

(** X11.  After a change of method on a table with buckets, "rehash"
    ([resizeTable(size())]) returns whenever [hash] computes a valid bucket
    index for every stored key under the new method; the size is unchanged,
    exactly the keys stored before are stored, each once, and [find] now
    meets every one of them under the new method. *)
Theorem rehash_after_method_change (h : HashMap) (m : string) :
  wf h -> 0 < n h ->
  (forall key, stored h key -> hash_valid (setHashCodeMethod h m) key) ->
  exists h',
    rehash (setHashCodeMethod h m) = Ok h'
    /\ size h' = size h
    /\ HashCodeMethod h' = HashCodeMethod (setHashCodeMethod h m)
    /\ NoDup (concat (table h'))
    /\ (forall key, stored h' key <-> stored h key)
    /\ (forall key, stored h key -> exists i, find h' key = Ok i /\ 0 <= i < size h).
Proof.
  intros Hwf Hn Hvalid.
  destruct (setHashCodeMethod_arrays h m) as (Hn1 & Ht1 & Hc1).
  set (g := setHashCodeMethod h m) in *.
  assert (Hwfg : wf g) by (unfold wf; by rewrite Hn1, Ht1, Hc1).
  assert (Hstored : forall key, stored g key <-> stored h key).
  { intros key. unfold stored, stored_in. by rewrite Ht1. }
  destruct (resizeTable_returns g (size g)) as (h' & Hr & (Hwf' & Hp' & _) & Hn' & Hm' & Hs').
  { done. }
  { unfold size. lia. }
  { intros key Hkey%Hstored. apply (hash_valid_same_shape g); [done | done |].
    by apply Hvalid. }
  exists h'. split; [done |]. unfold size in *.
  split; [lia |]. split; [done |]. split; [by apply placed_NoDup |].
  split; [intros key; by rewrite Hs' |].
  intros key Hkey. destruct (Hvalid key Hkey) as (i & Hh & Hi).
  assert (Hh' : hash h' key = Ok i) by (rewrite <- Hh; by apply hash_same_shape).
  exists i. split; [| lia].
  apply find_stored_in; [done | lia |].
  apply (placed_stored_in h' key i Hp' Hh'). by apply Hs', Hstored.
Qed.

Lemma rehash_after_method_change_witness :
  find dog_then_poly "dog" = Ok (-1)
  /\ exists h', rehash dog_then_poly = Ok h' /\ find h' "dog" = Ok 4.
Proof.
  split; [reflexivity |].
  destruct (rehash_after_method_change
              {| HashCodeMethod := simple; n := 5; table := [["dog"]; []; []; []; []];
                 inserts := [1; 0; 0; 0; 0] |} "poly")
    as (h' & Hr & _ & _ & _ & _ & Hf).
  - split; reflexivity.
  - cbn. lia.
  - intros key Hkey%stored_concat. simpl in Hkey.
    apply elem_of_cons in Hkey as [-> | Hkey]; [| by apply elem_of_nil in Hkey].
    exists 4. split; [reflexivity | cbn; lia].
  - exists h'. split; [exact Hr |].
    destruct (Hf "dog") as (i & Hfind & _).
    + exists 0%nat, ["dog"]. split; [reflexivity | apply list_elem_of_here].
    + assert (i = 4) as ->; [| exact Hfind].
      vm_compute in Hr. injection Hr as <-. vm_compute in Hfind. by injection Hfind.
Defined.

(** ** Lower case and trimming *)

Section Normalising.

Lemma to_lower_twice (c : ascii) : to_lower (to_lower c) = to_lower c.
Proof. by destruct c as [[] [] [] [] [] [] [] []]. Qed.

Lemma to_lower_blank (c : ascii) : blank (to_lower c) = blank c.
Proof. by destruct c as [[] [] [] [] [] [] [] []]. Qed.

Lemma to_lower_not_capital (c : ascii) :
  ~ 65 <= char_code (to_lower c) <= 90.
Proof. destruct c as [[] [] [] [] [] [] [] []]; vm_compute; intros [H1 H2]; auto. Qed.

Lemma to_lower_small (c : ascii) : ~ 65 <= char_code c <= 90 -> to_lower c = c.
Proof.
  intros Hc. unfold to_lower.
  destruct (Z.leb_spec 65 (char_code c)), (Z.leb_spec (char_code c) 90); simpl; try done.
  lia.
Qed.

Lemma chars_lowercase (s : string) : chars (lowercase s) = map to_lower (chars s).
Proof. induction s as [| c s IH]; simpl; [done | by rewrite <- IH]. Qed.

Lemma chars_of_list (cs : list ascii) : chars (string_of_list_ascii cs) = cs.
Proof. apply list_ascii_of_string_of_list_ascii. Qed.

Lemma string_of_chars (s : string) : string_of_list_ascii (chars s) = s.
Proof. apply string_of_list_ascii_of_string. Qed.

Lemma find_last_snoc (cs : list ascii) (c : ascii) (i : nat) (last : option nat) :
  find_last_not_of_blank (cs ++ [c]) i last
  = if blank c then find_last_not_of_blank cs i last else Some (i + length cs)%nat.
Proof.
  revert i last. induction cs as [| x cs IH]; intros i last; simpl.
  - destruct (blank c); [done | f_equal; lia].
  - rewrite IH. destruct (blank c); [done | f_equal; lia].
Qed.

Lemma find_last_bound (cs : list ascii) (i : nat) (last : option nat) (j : nat) :
  find_last_not_of_blank cs i last = Some j ->
  last = Some j \/ (i <= j < i + length cs)%nat.
Proof.
  revert i last. induction cs as [| x cs IH]; intros i last; simpl; [by left |].
  intros [Hl | Hj]%IH; [| right; lia].
  destruct (blank x); [by left | right]. injection Hl as <-. lia.
Qed.

(** The list the trimmed string is made of. *)
Lemma chars_rtrim_snoc (cs : list ascii) (c : ascii) :
  chars (rtrim (string_of_list_ascii (cs ++ [c])))
  = if blank c then chars (rtrim (string_of_list_ascii cs)) else cs ++ [c].
Proof.
  unfold rtrim. rewrite !chars_of_list, find_last_snoc.
  destruct (blank c).
  - destruct (find_last_not_of_blank cs 0 None) as [j |] eqn:Hj; [| done].
    apply find_last_bound in Hj as [Hj | Hj]; [done |].
    by rewrite take_app_le by lia.
  - replace (S (0 + length cs)) with (length (cs ++ [c]))
      by (rewrite length_app; simpl; lia).
    apply firstn_all.
Qed.

Lemma rtrim_list_spec (cs : list ascii) :
  exists kept blanks,
    cs = kept ++ blanks
    /\ chars (rtrim (string_of_list_ascii cs)) = kept
    /\ Forall (fun c => blank c = true) blanks
    /\ (forall front c, kept = front ++ [c] -> blank c = false).
Proof.
  induction cs as [| c cs IH] using rev_ind.
  - exists [], []. repeat split; try done. intros front c Hnil.
    by destruct front.
  - rewrite chars_rtrim_snoc. destruct (blank c) eqn:Hc.
    + destruct IH as (kept & blanks & -> & Hk & Hb & Hlast).
      exists kept, (blanks ++ [c]). split; [by rewrite app_assoc |]. split; [done |].
      split; [| done]. apply Forall_app. split; [done | by constructor].
    + exists (cs ++ [c]), []. split; [by rewrite app_nil_r |]. split; [done |].
      split; [constructor |]. intros front c' [_ Heq]%app_inj_tail. by subst.
Qed.

Lemma blank_map_to_lower (cs : list ascii) (i : nat) (last : option nat) :
  find_last_not_of_blank (map to_lower cs) i last = find_last_not_of_blank cs i last.
Proof.
  revert i last. induction cs as [| c cs IH]; intros i last; simpl; [done |].
  by rewrite to_lower_blank, IH.
Qed.

Lemma lowercase_of_list (cs : list ascii) :
  lowercase (string_of_list_ascii cs) = string_of_list_ascii (map to_lower cs).
Proof. induction cs as [| c cs IH]; simpl; [done | by rewrite IH]. Qed.

Lemma rtrim_lowercase (s : string) : rtrim (lowercase s) = lowercase (rtrim s).
Proof.
  unfold rtrim. rewrite chars_lowercase, blank_map_to_lower, lowercase_of_list.
  f_equal. by rewrite <- firstn_map.
Qed.

Lemma lowercase_twice (s : string) : lowercase (lowercase s) = lowercase s.
Proof. induction s as [| c s IH]; simpl; [done | by rewrite to_lower_twice, IH]. Qed.

Lemma rtrim_twice (s : string) : rtrim (rtrim s) = rtrim s.
Proof.
  rewrite <- (string_of_chars s).
  destruct (rtrim_list_spec (chars s)) as (kept & blanks & _ & Hk & _ & Hlast).
  rewrite <- (string_of_chars (rtrim (string_of_list_ascii (chars s)))), Hk.
  destruct kept as [| c kept _] using rev_ind.
  - reflexivity.
  - rewrite <- (string_of_chars (rtrim _)), chars_rtrim_snoc.
    by rewrite (Hlast kept c eq_refl).
Qed.

End Normalising.

(** X12.  The trimming step removes exactly the trailing run of blanks
    (space, newline, carriage return, tab): the string is the trimmed one
    followed by blanks only, the trimmed one does not end in a blank, so
    trimming again changes nothing; and a string of blanks only, the empty
    one included, becomes the empty string. *)
Theorem rtrim_removes_trailing_blanks (s : string) :
  (exists blanks,
      chars s = chars (rtrim s) ++ blanks /\ Forall (fun c => blank c = true) blanks)
  /\ (forall front c, chars (rtrim s) = front ++ [c] -> blank c = false)
  /\ rtrim (rtrim s) = rtrim s
  /\ ((forall c, c ∈ chars s -> blank c = true) -> rtrim s = ""%string).
Proof.
  destruct (rtrim_list_spec (chars s)) as (kept & blanks & Hs & Hk & Hb & Hlast).
  rewrite string_of_chars in Hk.
  split; [exists blanks; by rewrite Hk |].
  split; [by rewrite Hk |]. split; [apply rtrim_twice |].
  intros Hall. rewrite <- (string_of_chars (rtrim s)), Hk.
  destruct kept as [| c kept _] using rev_ind; [done |].
  specialize (Hlast kept c eq_refl).
  rewrite (Hall c) in Hlast; [done |].
  rewrite Hs. apply elem_of_app. left. apply elem_of_app. right. apply list_elem_of_here.
Qed.

Lemma rtrim_removes_trailing_blanks_witness :
  rtrim (String "c" (String "a" (String "t" (String " " (String "013" EmptyString)))))
  = "cat"%string
  /\ rtrim (String " " (String "009" EmptyString)) = ""%string.
Proof.
  split; [reflexivity |].
  apply (proj2 (proj2 (proj2 (rtrim_removes_trailing_blanks _)))).
  intros c Hc. simpl in Hc.
  repeat (apply elem_of_cons in Hc as [-> | Hc]); [reflexivity | reflexivity |].
  by apply elem_of_nil in Hc.
Defined.

(** X13.  [lowercase] keeps the length, leaves no capital letter ['A'] to
    ['Z'] in its result, changes nothing in a string that has none, and so
    changes nothing when applied twice. *)
Theorem lowercase_result (s : string) :
  String.length (lowercase s) = String.length s
  /\ (forall c, c ∈ chars (lowercase s) -> ~ 65 <= char_code c <= 90)
  /\ ((forall c, c ∈ chars s -> ~ 65 <= char_code c <= 90) -> lowercase s = s)
  /\ lowercase (lowercase s) = lowercase s.
Proof.
  split; [| split; [| split; [| apply lowercase_twice]]].
  - induction s as [| c s IH]; simpl; [done | by rewrite IH].
  - intros c. rewrite chars_lowercase. intros (x & -> & _)%list_elem_of_fmap.
    apply to_lower_not_capital.
  - induction s as [| c s IH]; intros Hs; simpl; [done |].
    rewrite to_lower_small by (apply Hs; simpl; apply list_elem_of_here).
    rewrite IH; [done |]. intros x Hx. apply Hs. simpl. by apply list_elem_of_further.
Qed.

Lemma lowercase_result_witness :
  lowercase "Cat-5"%string = "cat-5"%string /\ lowercase "cat-5"%string = "cat-5"%string.
Proof.
  split; [reflexivity |].
  apply (proj1 (proj2 (proj2 (lowercase_result "cat-5")))).
  intros c Hc. simpl in Hc.
  repeat (apply elem_of_cons in Hc as [-> | Hc]);
    try (vm_compute; intros [H1 H2]; auto; fail).
  by apply elem_of_nil in Hc.
Defined.

(** X14.  [load] lowers a line and then trims it, while [main] trims a
    token and then lowers it: the two orders give the same key, and a key so
    normalised is left as it is by either step, so a word typed as it stands
    in the file addresses the key [load] stored. *)
Theorem normalize_stable (line : string) :
  lowercase (rtrim line) = normalize line
  /\ lowercase (normalize line) = normalize line
  /\ rtrim (normalize line) = normalize line
  /\ normalize (normalize line) = normalize line.
Proof.
  unfold normalize. split; [by rewrite rtrim_lowercase |].
  assert (H1 : lowercase (rtrim (lowercase line)) = rtrim (lowercase line))
    by (by rewrite <- rtrim_lowercase, lowercase_twice).
  split; [done |]. split; [apply rtrim_twice |].
  by rewrite H1, rtrim_twice.
Qed.

(** ** [load] *)

Section Loading.

Lemma load_put_all (lines : list string) (h : HashMap) :
  load lines h = put_all (map normalize lines) h.
Proof.
  revert h. induction lines as [| line rest IH]; intros h; simpl; [done |].
  destruct (put h (normalize line)); simpl; [apply IH | done].
Qed.

Lemma put_stored_in_kept (h h1 : HashMap) (key key' : string) (i : nat) :
  put h key = Ok h1 -> stored_in h i key' -> stored_in h1 i key'.
Proof.
  intros [[-> _] | (j & bucket & count & -> & _ & _ & Hb & _)]%put_Ok_inv; [done |].
  intros (l & Hl & Hin). destruct (decide (i = Z.to_nat j)) as [-> | Hi].
  - rewrite Hb in Hl. injection Hl as <-. exists (bucket ++ [key]).
    split; [by apply table_appended_here | apply elem_of_app; by left].
  - exists l. split; [by rewrite table_appended_other | done].
Qed.

Lemma put_all_stores (keys : list string) (g g' : HashMap) :
  put_all keys g = Ok g' ->
  (forall key, key ∈ keys -> stored g' key)
  /\ (forall i key, stored_in g i key -> stored_in g' i key).
Proof.
  revert g. induction keys as [| key rest IH]; intros g; simpl.
  - intros [= <-]. split; [by intros key ?%elem_of_nil | done].
  - destruct (put g key) as [g1 |] eqn:Hput; [simpl | discriminate].
    intros [Hrest Hkept]%IH. split.
    + intros k [Heq | Hk]%elem_of_cons; [subst k | by apply Hrest].
      destruct (put_stores g g1 key Hput) as (i & Hi). exists i. by apply Hkept.
    + intros i k Hk. apply Hkept. by apply (put_stored_in_kept g g1 key).
Qed.

Lemma put_all_returns (keys : list string) (g : HashMap) :
  wf g -> (forall key, key ∈ keys -> hash_valid g key) ->
  exists g', put_all keys g = Ok g'.
Proof.
  revert g. induction keys as [| key rest IH]; intros g Hwf Hvalid; simpl; [by exists g |].
  destruct (Hvalid key (list_elem_of_here _ _)) as (i & Hh & Hi).
  destruct (put_valid g key i Hwf Hh Hi) as (g1 & Hput & _). rewrite Hput. simpl.
  destruct (put_shape g g1 key Hput) as (Hn & Hm & Hwf1).
  apply IH; [by apply Hwf1 |].
  intros k Hk. apply (hash_valid_same_shape g); [done | done |].
  apply Hvalid. by apply list_elem_of_further.
Qed.

Lemma put_Ok_chain (h h1 : HashMap) (key : string) :
  put h key = Ok h1 ->
  exists i bucket,
    hash h key = Ok i /\ 0 <= i /\ table h !! Z.to_nat i = Some bucket
    /\ table h1 = <[Z.to_nat i := add_key bucket key]> (table h).
Proof.
  intros Hput. destruct (find h key) as [v |] eqn:Hfind.
  2:{ unfold put in Hput. by rewrite Hfind in Hput. }
  destruct (find_Ok_inv h key v Hfind) as (i & bucket & Hh & Hi & Hb & Hcase).
  exists i, bucket. split; [done |]. split; [done |]. split; [done |].
  unfold add_key. destruct Hcase as [[Hin ->] | [Hout ->]].
  - rewrite bool_decide_eq_true_2 by done.
    unfold put in Hput. rewrite Hfind in Hput. simpl in Hput.
    destruct (Z.eqb_spec i (-1)); [lia |]. injection Hput as <-.
    by rewrite list_insert_id.
  - rewrite bool_decide_eq_false_2 by done.
    unfold put in Hput. rewrite Hfind, Hh in Hput. simpl in Hput.
    rewrite (proj2 (at_index_Ok (table h) i bucket)) in Hput by done. simpl in Hput.
    destruct (at_index (inserts h) i) as [count |]; [simpl in Hput | discriminate].
    by injection Hput as <-.
Qed.

Lemma hashes_to_same_shape (h g : HashMap) (i : nat) (key : string) :
  HashCodeMethod g = HashCodeMethod h -> n g = n h -> hashes_to g i key = hashes_to h i key.
Proof. intros Hm Hn. unfold hashes_to. by rewrite (hash_same_shape h g). Qed.

(** Each chain grows by the keys that hash to its bucket, in the order they
    are put. *)
Lemma put_all_chain (keys : list string) (g g' : HashMap) (i : nat) (bucket : list string) :
  put_all keys g = Ok g' -> table g !! i = Some bucket ->
  table g' !! i = Some (fold_left add_key (List.filter (hashes_to g i) keys) bucket).
Proof.
  revert g bucket. induction keys as [| key rest IH]; intros g bucket; simpl.
  - by intros [= <-].
  - destruct (put g key) as [g1 |] eqn:Hput; [simpl | discriminate].
    intros Hrest Hb.
    destruct (put_shape g g1 key Hput) as (Hn & Hm & _).
    destruct (put_Ok_chain g g1 key Hput) as (j & chain & Hh & Hj & Hchain & Htable).
    assert (Hfilter : List.filter (hashes_to g i) rest = List.filter (hashes_to g1 i) rest).
    { apply List.filter_ext. intros k. symmetry. by apply hashes_to_same_shape. }
    unfold hashes_to at 1. rewrite Hh.
    destruct (Z.eqb_spec j (Z.of_nat i)) as [Heq | Hne].
    + assert (Hi : Z.to_nat j = i) by lia. rewrite Hi in Hchain, Htable.
      rewrite Hb in Hchain. injection Hchain as <-.
      simpl. rewrite Hfilter. apply (IH g1); [done |].
      rewrite Htable. apply list_lookup_insert_eq. by apply lookup_lt_Some in Hb.
    + rewrite Hfilter. apply (IH g1); [done |].
      rewrite Htable. rewrite list_lookup_insert_ne; [done | lia].
Qed.

Lemma placed_find (h : HashMap) (key : string) :
  placed h -> stored h key -> exists i, find h key = Ok i /\ 0 <= i /\ hash h key = Ok i.
Proof.
  intros Hp (i & bucket & Hb & Hin).
  destruct (Hp i bucket Hb) as [_ Hkeys]. specialize (Hkeys key Hin).
  exists (Z.of_nat i). split; [| split; [lia | done]].
  apply find_stored_in; [done | lia |]. rewrite Nat2Z.id. by exists bucket.
Qed.

End Loading.

(** X15.  [load] puts the normalised lines in file order.  It returns
    whenever [hash] computes a valid bucket index for each of them, and a
    file without lines (or one that could not be opened) leaves the table
    as it is.  When it returns, size and method are unchanged, every key
    stored before is still in its bucket, every line is stored in its
    normalised form (a blank line as the empty key), and on a table whose
    keys are placed where they hash to, [find] meets each of them.  The
    order is the file's: each chain is afterwards the chain it was, followed
    by the normalised lines that hash to its bucket and were not in the
    chain yet, each once, in the order of the file. *)
Theorem load_stores_lines (lines : list string) (h : HashMap) :
  load [] h = Ok h
  /\ (wf h -> (forall line, line ∈ lines -> hash_valid h (normalize line)) ->
      exists h', load lines h = Ok h')
  /\ (forall h', load lines h = Ok h' ->
      size h' = size h
      /\ HashCodeMethod h' = HashCodeMethod h
      /\ (forall i key, stored_in h i key -> stored_in h' i key)
      /\ (forall line, line ∈ lines -> stored h' (normalize line))
      /\ (placed h ->
          placed h'
          /\ forall line, line ∈ lines ->
               exists i, find h' (normalize line) = Ok i /\ 0 <= i)
      /\ (forall i bucket,
            table h !! i = Some bucket ->
            table h' !! i
            = Some (fold_left add_key
                      (List.filter (hashes_to h i) (normalize <$> lines)) bucket))).
Proof.
  split; [done |]. split.
  - intros Hwf Hvalid. rewrite load_put_all. apply put_all_returns; [done |].
    intros key (line & -> & Hline)%list_elem_of_fmap. by apply Hvalid.
  - intros h'. rewrite load_put_all. intros Hload.
    destruct (put_all_shape _ h h' Hload) as (Hn & Hm & _).
    destruct (put_all_stores _ h h' Hload) as [Hnew Hkept].
    assert (Hlines : forall line, line ∈ lines -> stored h' (normalize line)).
    { intros line Hline. apply Hnew. apply list_elem_of_fmap. by exists line. }
    split; [done |]. split; [done |]. split; [done |]. split; [done |].
    split; [| intros i bucket Hb; by apply (put_all_chain _ h h')].
    intros Hp.
    assert (Hp' : placed h').
    { by apply (put_all_keeps placed (fun g key g' Hg Hput => put_placed g g' key Hg Hput)
                  (map normalize lines) h h'). }
    split; [done |]. intros line Hline.
    destruct (placed_find h' (normalize line) Hp' (Hlines line Hline)) as (i & Hf & Hi & _).
    by exists i.
Qed.

Lemma load_stores_lines_witness :
  exists h',
    load ["Cat"; "DOG  "; "  "]%string (fresh_table simple 5) = Ok h'
    /\ find h' "dog" = Ok 0
    /\ stored h' ""
    /\ table h' !! 0%nat = Some ["dog"].
Proof.
  destruct (load_stores_lines ["Cat"; "DOG  "; "  "]%string (fresh_table simple 5))
    as (_ & Hret & Hres).
  destruct Hret as (h' & Hload).
  - split; reflexivity.
  - intros line Hline.
    repeat (apply elem_of_cons in Hline as [-> | Hline]);
      [| | | by apply elem_of_nil in Hline];
      eexists; (split; [reflexivity | vm_compute; split; [discriminate | reflexivity]]).
  - exists h'. split; [exact Hload |].
    destruct (Hres h' Hload) as (_ & _ & _ & Hstored & _ & Horder).
    split; [| split].
    + pose proof Hload as Hl. vm_compute in Hl. injection Hl as <-. reflexivity.
    + apply (Hstored "  "%string). do 2 apply list_elem_of_further. apply list_elem_of_here.
    + apply (Horder 0%nat []). reflexivity.
Defined.

(** ** The Custom hash code *)

Section Custom.

Lemma custom_loop_range (cs : list ascii) (j sum : Z) :
  Int32.in_range sum -> Int32.in_range (custom_loop cs j sum).
Proof.
  revert j sum. induction cs as [| c rest IH]; intros j sum Hsum; [done |].
  cbn [custom_loop]. apply IH, double_to_int_range.
Qed.

Lemma custom_terms_nonneg (cs : list ascii) :
  (forall c, c ∈ cs -> 92 <= char_code c) -> 0 <= custom_terms cs.
Proof.
  induction cs as [| c rest IH]; intros Hcs; cbn [custom_terms]; [lia |].
  assert (92 <= char_code c) by (apply Hcs, list_elem_of_here).
  assert (0 <= custom_terms rest) by (apply IH; intros; by apply Hcs, list_elem_of_further).
  assert (0 <= (char_code c - 92) ^ Z.of_nat (length (c :: rest)))
    by (apply Z.pow_nonneg; lia).
  lia.
Qed.

(** With non-negative bases the running sums grow, so the last one decides
    whether every conversion stays in the [int] range. *)
Lemma custom_loop_exact (cs : list ascii) (j sum : Z) :
  j = Z.of_nat (length cs) ->
  (forall c, c ∈ cs -> 92 <= char_code c) ->
  0 <= sum -> sum + custom_terms cs <= Int32.INT_MAX ->
  custom_loop cs j sum = sum + custom_terms cs.
Proof.
  revert j sum. induction cs as [| c rest IH]; intros j sum Hj Hcs Hsum Hmax.
  - simpl. lia.
  - assert (Hc : 92 <= char_code c) by (apply Hcs, list_elem_of_here).
    assert (Hrest : 0 <= custom_terms rest).
    { apply custom_terms_nonneg. intros; by apply Hcs, list_elem_of_further. }
    assert (Hpow : 0 <= (char_code c - 92) ^ j) by (apply Z.pow_nonneg; lia).
    cbn [custom_terms] in Hmax. rewrite <- Hj in Hmax.
    cbn [custom_loop]. unfold custom_step.
    rewrite double_to_int_exact by range_lia.
    rewrite IH.
    + cbn [custom_terms]. rewrite <- Hj. lia.
    + simpl length in Hj. lia.
    + intros; by apply Hcs, list_elem_of_further.
    + lia.
    + lia.
Qed.

Lemma custom_terms_lowercase (cs : list ascii) :
  (forall c, c ∈ cs -> lowercase_letter c) ->
  29 * custom_terms cs <= 30 ^ (Z.of_nat (length cs) + 1) - 30.
Proof.
  induction cs as [| c rest IH]; intros Hcs; [simpl; lia |].
  assert (Hc : lowercase_letter c) by (apply Hcs, list_elem_of_here).
  assert (IH' : 29 * custom_terms rest <= 30 ^ (Z.of_nat (length rest) + 1) - 30).
  { apply IH. intros; by apply Hcs, list_elem_of_further. }
  unfold lowercase_letter in Hc. cbn [custom_terms].
  replace (Z.of_nat (length (c :: rest))) with (Z.of_nat (length rest) + 1)
    by (simpl length; lia).
  assert (Hle : (char_code c - 92) ^ (Z.of_nat (length rest) + 1)
                <= 30 ^ (Z.of_nat (length rest) + 1))
    by (apply Z.pow_le_mono_l; lia).
  assert (Hstep : 30 ^ (Z.of_nat (length rest) + 1 + 1)
                 = 30 * 30 ^ (Z.of_nat (length rest) + 1))
    by (rewrite <- Z.pow_succ_r by lia; f_equal; lia).
  lia.
Qed.

End Custom.

(** X16.  The Custom hash code is an [int].  For every key of characters
    with codes from 92 up whose sum, over the characters, of
    [(char_code - 92)] raised to the character's distance from the end of
    the key (the last character at distance 1) is at most [INT_MAX],
    [hashCodeCustom] returns that sum: in particular for every key of at
    most 6 lowercase letters and for the empty key (code 0).  No key whose
    sum is outside the [int] range gets it: a conversion that leaves the
    range gives [INT_MIN] and the loop goes on from there. *)
Theorem hashCodeCustom_value (key : string) :
  Int32.in_range (hashCodeCustom key)
  /\ ((forall c, c ∈ chars key -> 92 <= char_code c) ->
      custom_value key <= Int32.INT_MAX ->
      hashCodeCustom key = custom_value key)
  /\ (Z.of_nat (String.length key) <= 6 ->
      (forall c, c ∈ chars key -> lowercase_letter c) ->
      hashCodeCustom key = custom_value key)
  /\ hashCodeCustom "" = 0
  /\ (~ Int32.in_range (custom_value key) -> hashCodeCustom key <> custom_value key).
Proof.
  assert (Hrange : Int32.in_range (hashCodeCustom key)).
  { apply custom_loop_range. range_lia. }
  assert (Hgen : (forall c, c ∈ chars key -> 92 <= char_code c) ->
                 custom_value key <= Int32.INT_MAX ->
                 hashCodeCustom key = custom_value key).
  { intros Hcs Hmax. unfold hashCodeCustom, custom_value.
    rewrite (custom_loop_exact (chars key) _ 0); [lia | | done | lia | done].
    by rewrite length_chars. }
  split; [done |]. split; [exact Hgen |]. split; [| split; [done |]].
  - intros Hlen Hcs. apply Hgen.
    + intros c Hc. specialize (Hcs c Hc). unfold lowercase_letter in Hcs. lia.
    + pose proof (custom_terms_lowercase (chars key) Hcs) as Hb.
      rewrite length_chars in Hb.
      assert (30 ^ (Z.of_nat (String.length key) + 1) <= 30 ^ 7)
        by (apply Z.pow_le_mono_r; lia).
      unfold custom_value, Int32.INT_MAX. lia.
  - intros Hout Heq. apply Hout. by rewrite <- Heq.
Qed.

Lemma hashCodeCustom_value_witness :
  hashCodeCustom "cat" = 392
  /\ hashCodeCustom "zzzzzzz" = -1393345718
  /\ hashCodeCustom "zzzzzzz" <> custom_value "zzzzzzz".
Proof.
  split; [| split; [reflexivity |]].
  - apply (proj1 (proj2 (proj2 (hashCodeCustom_value "cat")))).
    + simpl. lia.
    + intros c Hc. simpl in Hc.
      repeat (apply elem_of_cons in Hc as [-> | Hc]);
        [| | | by apply elem_of_nil in Hc]; vm_compute; split; discriminate.
  - apply (proj2 (proj2 (proj2 (proj2 (hashCodeCustom_value "zzzzzzz"))))).
    vm_compute. intros [_ Hmax]. by apply Hmax.
Defined.

(** ** The Cyclic hash code *)

Section Cyclic.

Lemma high_bits_zero (s k : Z) : 0 <= s < 2 ^ 32 -> 32 <= k -> Z.testbit s k = false.
Proof.
  intros Hs Hk. destruct (Z.eq_dec s 0) as [-> | Hne]; [apply Z.bits_0 |].
  apply Z.bits_above_log2; [lia |].
  assert (Z.log2 s < 32) by (apply Z.log2_lt_pow2; lia). lia.
Qed.

Lemma shifts_disjoint (s : Z) :
  0 <= s < 2 ^ 32 -> Z.land (Int32.uwrap (Z.shiftl s 5)) (Z.shiftr s 27) = 0.
Proof.
  intros Hs. unfold Int32.uwrap. apply Z.bits_inj'. intros k Hk.
  rewrite Z.land_spec, Z.bits_0.
  destruct (Z.lt_ge_cases k 5) as [Hlow | Hhigh].
  - change 4294967296 with (2 ^ 32). rewrite Z.mod_pow2_bits_low by lia.
    by rewrite Z.shiftl_spec_low by lia.
  - rewrite Z.shiftr_spec by lia. rewrite (high_bits_zero s (k + 27)) by lia.
    apply andb_false_r.
Qed.

(** The two shifts joined by [|] are the rotation by 5 bits to the left. *)
Lemma rotation_value (s : Z) :
  0 <= s < 2 ^ 32 ->
  Z.lor (Int32.uwrap (Z.shiftl s 5)) (Z.shiftr s 27) = (s mod 2 ^ 27) * 32 + s / 2 ^ 27.
Proof.
  intros Hs.
  pose proof (Z.add_lor_land (Int32.uwrap (Z.shiftl s 5)) (Z.shiftr s 27)) as H.
  rewrite shifts_disjoint in H by done. rewrite Z.add_0_r in H. rewrite H.
  unfold Int32.uwrap. rewrite Z.shiftl_mul_pow2, Z.shiftr_div_pow2 by lia.
  f_equal. change 4294967296 with (2 ^ 27 * 2 ^ 5). by rewrite Z.mul_mod_distr_r by lia.
Qed.

Lemma cyclic_step_value (s : Z) (c : ascii) :
  0 <= s < 2 ^ 32 ->
  cyclic_step s c = ((s mod 2 ^ 27) * 32 + s / 2 ^ 27 + char_code c) mod 2 ^ 32.
Proof.
  intros Hs. unfold cyclic_step. cbv zeta. rewrite rotation_value by done.
  unfold Int32.uwrap. change 4294967296 with (2 ^ 32). by rewrite Zplus_mod_idemp_r.
Qed.

Lemma cyclic_step_range (s : Z) (c : ascii) : 0 <= cyclic_step s c < 2 ^ 32.
Proof. unfold cyclic_step, Int32.uwrap. apply Z.mod_pos_bound. lia. Qed.

Lemma cyclic_step_inj (s1 s2 : Z) (c : ascii) :
  0 <= s1 < 2 ^ 32 -> 0 <= s2 < 2 ^ 32 ->
  cyclic_step s1 c = cyclic_step s2 c -> s1 = s2.
Proof.
  intros H1 H2. rewrite !cyclic_step_value by done.
  pose proof (char_code_range c) as Hc.
  change (2 ^ 32) with 4294967296 in *. change (2 ^ 27) with 134217728 in *.
  intros Heq. Z.div_mod_to_equations. lia.
Qed.

Lemma cyclic_fold_range (cs : list ascii) (s : Z) :
  0 <= s < 2 ^ 32 -> 0 <= fold_left cyclic_step cs s < 2 ^ 32.
Proof.
  revert s. induction cs as [| c cs IH]; intros s Hs; simpl; [done |].
  apply IH, cyclic_step_range.
Qed.

Lemma cyclic_fold_inj (cs : list ascii) (s1 s2 : Z) :
  0 <= s1 < 2 ^ 32 -> 0 <= s2 < 2 ^ 32 ->
  fold_left cyclic_step cs s1 = fold_left cyclic_step cs s2 -> s1 = s2.
Proof.
  revert s1 s2. induction cs as [| c cs IH]; intros s1 s2 H1 H2; simpl; [done |].
  intros Heq%IH; try apply cyclic_step_range. by apply (cyclic_step_inj s1 s2 c).
Qed.

Lemma wrap_unsigned_inj (a b : Z) :
  0 <= a < 2 ^ 32 -> 0 <= b < 2 ^ 32 -> Int32.wrap a = Int32.wrap b -> a = b.
Proof.
  unfold Int32.wrap. change (2 ^ 32) with 4294967296. intros Ha Hb Heq.
  Z.div_mod_to_equations. lia.
Qed.

Lemma chars_append (p s : string) : chars (p ++ s)%string = chars p ++ chars s.
Proof. induction p as [| c p IH]; simpl; [done | by rewrite <- IH]. Qed.

Lemma cyclic_state_range (key : string) : 0 <= cyclic_state key < 2 ^ 32.
Proof. apply cyclic_fold_range. lia. Qed.

End Cyclic.

(** X17.  Each step of the Cyclic hash code rotates the 32-bit accumulator
    by 5 bits to the left and adds the character modulo [2^32]; nothing of
    the accumulator is lost, so two keys that end in the same characters
    have the same Cyclic code exactly when the parts before those characters
    have the same code.  The code is the accumulator read as an [int]. *)
Theorem hashCodeCyclic_rotation (p1 p2 s : string) :
  (forall acc c, 0 <= acc < 2 ^ 32 ->
     cyclic_step acc c
     = ((acc mod 2 ^ 27) * 32 + acc / 2 ^ 27 + char_code c) mod 2 ^ 32)
  /\ (hashCodeCyclic (p1 ++ s) = hashCodeCyclic (p2 ++ s)
      <-> hashCodeCyclic p1 = hashCodeCyclic p2)
  /\ Int32.in_range (hashCodeCyclic s)
  /\ hashCodeCyclic s = Int32.wrap (cyclic_state s).
Proof.
  split; [intros acc c; apply cyclic_step_value |].
  split; [| split; [apply wrap_range | done]].
  change (hashCodeCyclic (p1 ++ s)) with (Int32.wrap (cyclic_state (p1 ++ s))).
  change (hashCodeCyclic (p2 ++ s)) with (Int32.wrap (cyclic_state (p2 ++ s))).
  change (hashCodeCyclic p1) with (Int32.wrap (cyclic_state p1)).
  change (hashCodeCyclic p2) with (Int32.wrap (cyclic_state p2)).
  assert (Hsplit : forall p, cyclic_state (p ++ s) = fold_left cyclic_step (chars s) (cyclic_state p)).
  { intros p. unfold cyclic_state. by rewrite chars_append, fold_left_app. }
  split.
  - intros Heq%wrap_unsigned_inj; try apply cyclic_state_range.
    rewrite !Hsplit in Heq. apply cyclic_fold_inj in Heq; try apply cyclic_state_range.
    by rewrite Heq.
  - intros Heq%wrap_unsigned_inj; try apply cyclic_state_range.
    by rewrite !Hsplit, Heq.
Qed.

Lemma hashCodeCyclic_rotation_witness :
  hashCodeCyclic "cat" <> hashCodeCyclic "bat".
Proof.
  intros Heq.
  apply (proj1 (proj2 (hashCodeCyclic_rotation "c" "b" "at"))) in Heq.
  vm_compute in Heq. discriminate.
Defined.

(** ** The command loop of [main] *)

Section Main_loop.

Variable atoi : string -> result Z.
Variable files : string -> option (list string).

Lemma say_say (p : process) (a b : list output) : say (say p a) b = say p (a ++ b).
Proof. unfold say. simpl. by rewrite <- app_assoc. Qed.

Lemma say_nothing (p : process) : say p [] = p.
Proof. destruct p. unfold say. simpl. by rewrite app_nil_r. Qed.

Lemma lowercase_empty (s : string) : lowercase s = "" -> s = "".
Proof. by destruct s. Qed.

(** Tokens that are blank after trimming are passed over while the command
    is still empty. *)
Lemma token_loop_skip (blanks rest : list string) (p : process) :
  Forall (λ t, rtrim t = "") blanks ->
  token_loop atoi files (blanks ++ rest) "" p = token_loop atoi files rest "" p.
Proof.
  induction 1 as [| t blanks Ht _ IH]; simpl; [done |]. by rewrite Ht.
Qed.

Lemma token_loop_command (cmd : string) (rest : list string) (p : process) :
  token_loop atoi files (cmd :: rest) "" p
  = token_loop atoi files rest (lowercase (rtrim cmd))
      (if String.eqb (lowercase (rtrim cmd)) "check" then say p [text "misspelled:"] else p).
Proof. done. Qed.

Lemma token_loop_step (command token : string) (rest : list string) (p : process) :
  command <> "" ->
  token_loop atoi files (token :: rest) command p
  = let* p' := command_step atoi files command (rtrim token) p in
    token_loop atoi files rest command p'.
Proof. intros Hne%String.eqb_neq. simpl. by rewrite Hne. Qed.

Lemma check_words (words : list string) (p : process) :
  wf (H_map p) -> placed (H_map p) ->
  (forall w, w ∈ words -> hash_valid (H_map p) (normalize w)) ->
  token_loop atoi files words "check" p
  = Ok ("check", say p (flat_map (λ w, [text tab; text w]) (misspelled (H_map p) words))).
Proof.
  intros Hwf Hp. revert p Hwf Hp.
  induction words as [| w words IH]; intros p Hwf Hp Hvalid.
  { simpl. by rewrite say_nothing. }
  rewrite token_loop_step by done.
  change (command_step atoi files "check" (rtrim w) p)
    with (let* bucketIdx := find (H_map p) (lowercase (rtrim w)) in
          Ok (if bucketIdx <? 0 then say p [text tab; text (lowercase (rtrim w))] else p)).
  rewrite <- rtrim_lowercase. fold (normalize w).
  destruct (Hvalid w) as (i & Hi & Hrange); [by left |].
  assert (Hrest : forall v, v ∈ words -> hash_valid (H_map p) (normalize v)).
  { intros v Hv. apply Hvalid. by right. }
  unfold misspelled. rewrite fmap_cons, filter_cons.
  destruct (decide (normalize w ∉ concat (table (H_map p)))) as [Hout | Hin].
  - rewrite (find_not_stored_in _ _ i); try done.
    2:{ intros Hs. apply Hout, stored_concat. by exists (Z.to_nat i). }
    simpl. rewrite (IH (say p _)); try done. by rewrite say_say.
  - assert (Hs : stored (H_map p) (normalize w)).
    { apply stored_concat. by destruct (decide (normalize w ∈ concat (table (H_map p)))). }
    rewrite (find_stored_in _ _ i); [| done | lia | by apply placed_stored_in].
    simpl. destruct (Z.ltb_spec i 0) as [Hneg | _]; [lia |]. by apply IH.
Qed.

Lemma check_words_keep (words : list string) (p : process) (read : string * process) :
  token_loop atoi files words "check" p = Ok read ->
  read.1 = "check" /\ H_map read.2 = H_map p /\ H_allocated read.2 = H_allocated p.
Proof.
  revert p. induction words as [| w words IH]; intros p.
  { simpl. by intros [= <-]. }
  rewrite token_loop_step by done.
  change (command_step atoi files "check" (rtrim w) p)
    with (let* bucketIdx := find (H_map p) (lowercase (rtrim w)) in
          Ok (if bucketIdx <? 0 then say p [text tab; text (lowercase (rtrim w))] else p)).
  destruct (find (H_map p) (lowercase (rtrim w))) as [v |]; [simpl | discriminate].
  intros Hrest%IH. by destruct (v <? 0).
Qed.

Lemma put_words (words : list string) (p : process) :
  token_loop atoi files words "put" p
  = let* h := load words (H_map p) in Ok ("put", with_map p h).
Proof.
  revert p. induction words as [| w words IH]; intros p.
  { simpl. by destruct p. }
  rewrite token_loop_step by done.
  change (command_step atoi files "put" (rtrim w) p)
    with (let* h := put (H_map p) (lowercase (rtrim w)) in Ok (with_map p h)).
  rewrite <- rtrim_lowercase. fold (normalize w). simpl.
  destruct (put (H_map p) (normalize w)) as [h | e]; simpl; [| done].
  by rewrite IH.
Qed.

Lemma command_step_unknown (command token : string) (p : process) :
  command ∉ command_names -> command_step atoi files command token p = Ok p.
Proof.
  intros Hout. unfold command_step.
  repeat match goal with
  | |- context [String.eqb command ?name] =>
      destruct (String.eqb_spec command name) as [Heq | _];
      [exfalso; apply Hout; rewrite Heq; unfold command_names;
       repeat first [by apply list_elem_of_here | apply list_elem_of_further] |]
  end.
  done.
Qed.

Lemma after_tokens_unknown (command : string) (p : process) :
  command ∉ command_names -> after_tokens command p = Ok p.
Proof.
  intros Hout. unfold after_tokens.
  repeat match goal with
  | |- context [String.eqb command ?name] =>
      destruct (String.eqb_spec command name) as [Heq | _];
      [exfalso; apply Hout; rewrite Heq; unfold command_names;
       repeat first [by apply list_elem_of_here | apply list_elem_of_further] |]
  end.
  done.
Qed.

Lemma unknown_words (command : string) (words : list string) (p : process) :
  command <> "" -> command ∉ command_names ->
  token_loop atoi files words command p = Ok (command, p).
Proof.
  intros Hne Hout. induction words as [| w words IH]; [done |].
  rewrite token_loop_step by done. by rewrite command_step_unknown.
Qed.

Lemma blank_tokens (blanks : list string) (p : process) :
  Forall (λ t, rtrim t = "") blanks -> token_loop atoi files blanks "" p = Ok ("", p).
Proof. intros Hb. rewrite <- (app_nil_r blanks). by rewrite token_loop_skip. Qed.

Lemma run_check_line (line cmd : string) (blanks words : list string) (p : process) :
  split_line line = blanks ++ cmd :: words ->
  Forall (λ t, rtrim t = "") blanks ->
  lowercase (rtrim cmd) = "check" ->
  wf (H_map p) -> placed (H_map p) ->
  (forall w, w ∈ words -> hash_valid (H_map p) (normalize w)) ->
  run_line atoi files line p
  = Ok (say p ([text line; endl; text "misspelled:"]
               ++ flat_map (λ w, [text tab; text w]) (misspelled (H_map p) words)
               ++ [endl])).
Proof.
  intros Hsplit Hblanks Hcmd Hwf Hp Hvalid.
  unfold run_line. rewrite Hsplit, token_loop_skip, token_loop_command, Hcmd by done.
  change (String.eqb "check" "check") with true. cbv iota.
  rewrite check_words by done. simpl bind.
  change (after_tokens "check" ?q) with (Ok (say q [endl])).
  by rewrite !say_say.
Qed.

Lemma run_check_line_keeps (line cmd : string) (blanks words : list string)
    (p p' : process) :
  split_line line = blanks ++ cmd :: words ->
  Forall (λ t, rtrim t = "") blanks ->
  lowercase (rtrim cmd) = "check" ->
  run_line atoi files line p = Ok p' ->
  H_map p' = H_map p /\ H_allocated p' = H_allocated p.
Proof.
  intros Hsplit Hblanks Hcmd.
  unfold run_line. rewrite Hsplit, token_loop_skip, token_loop_command, Hcmd by done.
  change (String.eqb "check" "check") with true. cbv iota.
  destruct (token_loop atoi files words "check" _) as [read |] eqn:Hloop; [| discriminate].
  apply check_words_keep in Hloop as (Hcommand & Hmap & Halloc). simpl bind.
  rewrite Hcommand. change (after_tokens "check" ?q) with (Ok (say q [endl])).
  by intros [= <-].
Qed.

Lemma run_put_line (line cmd : string) (blanks words : list string) (p : process) :
  split_line line = blanks ++ cmd :: words ->
  Forall (λ t, rtrim t = "") blanks ->
  lowercase (rtrim cmd) = "put" ->
  run_line atoi files line p
  = (let* h := load words (H_map p) in Ok (with_map (say p [text line; endl]) h)).
Proof.
  intros Hsplit Hblanks Hcmd.
  unfold run_line. rewrite Hsplit, token_loop_skip, token_loop_command, Hcmd by done.
  change (String.eqb "put" "check") with false. cbv iota.
  rewrite put_words. simpl H_map.
  by destruct (load words (H_map p)) as [h | e].
Qed.

Lemma run_load_line (line cmd name : string) (lines : list string) (p : process) :
  split_line line = [cmd; name] ->
  lowercase (rtrim cmd) = "load" ->
  files (rtrim name) = Some lines ->
  run_line atoi files line p
  = (let* h := load lines (H_map p) in Ok (with_map (say p [text line; endl]) h)).
Proof.
  intros Hsplit Hcmd Hfile.
  unfold run_line. rewrite Hsplit, token_loop_command, Hcmd.
  change (String.eqb "load" "check") with false. cbv iota.
  rewrite token_loop_step by done.
  change (command_step atoi files "load" (rtrim name) ?q)
    with (let '(o, lines) := loadFile files (rtrim name) in
          let* h := load lines (H_map q) in Ok (with_map (say q o) h)).
  unfold loadFile. rewrite Hfile. simpl H_map.
  destruct (load lines (H_map p)) as [h | e]; [| done].
  simpl. unfold with_map, say. simpl. by rewrite app_nil_r.
Qed.

Lemma run_resize_line (line cmd token : string) (s : Z) (p : process) :
  split_line line = [cmd; token] ->
  lowercase (rtrim cmd) = "resize" ->
  atoi (rtrim token) = Ok s ->
  run_line atoi files line p
  = (let* h := resizeTable_deleting (H_allocated p) (H_map p) s in
     Ok {| H_map := h; H_allocated := true; cout := cout p ++ [text line; endl] |}).
Proof.
  intros Hsplit Hcmd Hs.
  unfold run_line. rewrite Hsplit, token_loop_command, Hcmd.
  change (String.eqb "resize" "check") with false. cbv iota.
  rewrite token_loop_step by done.
  change (command_step atoi files "resize" (rtrim token) ?q)
    with (let* s := atoi (rtrim token) in
          let* h := resizeTable_deleting (H_allocated q) (H_map q) s in
          Ok {| H_map := h; H_allocated := true; cout := cout q |}).
  rewrite Hs. simpl.
  by destruct (resizeTable_deleting (H_allocated p) (H_map p) s) as [h | e].
Qed.

End Main_loop.

Section Tokens.

Lemma tokens_of_no_space (cs token : list ascii) (t : string) :
  " "%char ∉ token -> t ∈ tokens_of cs token -> " "%char ∉ chars t.
Proof.
  revert token. induction cs as [| c cs IH]; intros token Htoken; simpl.
  - destruct token as [| a token']; [by intros ?%elem_of_nil |].
    intros ->%list_elem_of_singleton. by rewrite chars_of_list.
  - destruct (Ascii.eqb_spec c " ") as [-> | Hc].
    + intros [-> | Hin]%elem_of_cons; [by rewrite chars_of_list |].
      apply (IH []); [apply not_elem_of_nil | done].
    + apply IH. intros [Hin | Heq%list_elem_of_singleton]%elem_of_app; [by apply Htoken | done].
Qed.

Lemma tokens_of_nil (cs token : list ascii) : tokens_of cs token = [] -> cs = [] /\ token = [].
Proof.
  revert token. induction cs as [| c cs IH]; intros token; simpl.
  - by destruct token.
  - destruct (Ascii.eqb c " "); [done |]. intros [_ Htoken]%IH. by destruct token.
Qed.

Lemma tokens_of_joined (cs token : list ascii) :
  token ++ cs = joined (tokens_of cs token)
  \/ token ++ cs = joined (tokens_of cs token) ++ [" "%char].
Proof.
  revert token. induction cs as [| c cs IH]; intros token; simpl.
  - left. rewrite app_nil_r. destruct token; [done |]. simpl. by rewrite chars_of_list.
  - destruct (Ascii.eqb_spec c " ") as [-> | Hc].
    + destruct (tokens_of cs []) as [| t ts] eqn:Hts.
      * apply tokens_of_nil in Hts as [-> _]. right. simpl. by rewrite chars_of_list.
      * change (joined (string_of_list_ascii token :: t :: ts))
          with (chars (string_of_list_ascii token) ++ " "%char :: joined (t :: ts)).
        rewrite chars_of_list. specialize (IH []). rewrite Hts in IH. simpl in IH.
        destruct IH as [-> | ->]; [by left | right]. by rewrite <- app_assoc.
    + specialize (IH (token ++ [c])). by rewrite <- app_assoc in IH.
Qed.

End Tokens.

Lemma cat_dog_placed : placed cat_dog.
Proof.
  intros i bucket Hb.
  destruct i as [| [| [| [| [| i]]]]]; simpl in Hb; try injection Hb as <-;
    try (split; [apply NoDup_nil_2 | by intros key ?%elem_of_nil]).
  - split; [apply NoDup_singleton |]. intros key Hk%list_elem_of_singleton. by subst key.
  - split; [apply NoDup_singleton |]. intros key Hk%list_elem_of_singleton. by subst key.
  - by rewrite lookup_nil in Hb.
Qed.

(** X18.  A "check" line that returns leaves the table as it was, whatever
    the table.  On a table with its [n] buckets whose keys are placed where
    they hash to, and when [hash] computes a valid bucket index for every
    word of the line (trimmed and in lower case), the line returns and
    writes its echo, "misspelled:", then a tab and the word for exactly
    those words that, trimmed and in lower case, are in no chain, in the
    order of the line, and an end of line.  Blank tokens before the command
    are passed over and the command is recognised in any letter case. *)
Theorem check_line_reports (atoi : string -> result Z) (files : string -> option (list string))
    (line cmd : string) (blanks words : list string) (p : process) :
  split_line line = blanks ++ cmd :: words ->
  Forall (λ t, rtrim t = "") blanks ->
  lowercase (rtrim cmd) = "check" ->
  (forall p', run_line atoi files line p = Ok p' ->
     H_map p' = H_map p /\ H_allocated p' = H_allocated p)
  /\ (wf (H_map p) -> placed (H_map p) ->
      (forall w, w ∈ words -> hash_valid (H_map p) (normalize w)) ->
      run_line atoi files line p
      = Ok (say p ([text line; endl; text "misspelled:"]
                   ++ flat_map (λ w, [text tab; text w]) (misspelled (H_map p) words)
                   ++ [endl])))
  /\ (forall w, w ∈ misspelled (H_map p) words
        <-> w ∈ normalize <$> words /\ ~ stored (H_map p) w).
Proof.
  intros Hsplit Hblanks Hcmd. split; [| split].
  - intros p'. by apply (run_check_line_keeps atoi files line cmd blanks words).
  - intros Hwf Hp Hvalid. by apply (run_check_line atoi files line cmd blanks).
  - intros w. unfold misspelled. rewrite list_elem_of_filter, stored_concat. tauto.
Qed.

Lemma check_line_reports_witness :
  run_line (fun _ => Ok 0) (fun _ => None) "CHECK dog emu CAT"
    {| H_map := cat_dog; H_allocated := true; cout := [] |}
  = Ok {| H_map := cat_dog; H_allocated := true;
          cout := [text "CHECK dog emu CAT"; endl; text "misspelled:";
                   text tab; text "emu"; endl] |}.
Proof.
  destruct (check_line_reports (fun _ => Ok 0) (fun _ => None) "CHECK dog emu CAT" "CHECK" []
              ["dog"; "emu"; "CAT"] {| H_map := cat_dog; H_allocated := true; cout := [] |})
    as (_ & H1 & _).
  - reflexivity.
  - apply Forall_nil_2.
  - reflexivity.
  - apply H1.
    + split; reflexivity.
    + apply cat_dog_placed.
    + intros w Hw. rewrite !elem_of_cons in Hw.
      destruct Hw as [-> | [-> | [-> | Hw]]]; [| | | by apply elem_of_nil in Hw];
        (eexists; split; [vm_compute; reflexivity | cbn; lia]).
Defined.

(** X19.  A "put" line and a "load" line are the same thing to the table:
    "put" followed by words does what [load] does on a file that has these
    words as its lines, in the same order, whether it returns or not, the
    trimming before the lower case of the one giving the keys of the lower
    case before the trimming of the other.  Apart from the echo nothing is
    written. *)
Theorem put_line_loads (atoi : string -> result Z) (files : string -> option (list string))
    (line cmd : string) (blanks words : list string) (p : process) :
  split_line line = blanks ++ cmd :: words ->
  Forall (λ t, rtrim t = "") blanks ->
  lowercase (rtrim cmd) = "put" ->
  run_line atoi files line p
  = (let* h := load words (H_map p) in Ok (with_map (say p [text line; endl]) h))
  /\ (forall line' cmd' name,
        split_line line' = [cmd'; name] ->
        lowercase (rtrim cmd') = "load" ->
        files (rtrim name) = Some words ->
        run_line atoi files line' p
        = (let* h := load words (H_map p) in Ok (with_map (say p [text line'; endl]) h))).
Proof.
  intros Hsplit Hblanks Hcmd. split.
  - by apply (run_put_line atoi files line cmd blanks).
  - intros line' cmd' name Hsplit' Hcmd' Hfile.
    by apply (run_load_line atoi files line' cmd' name).
Qed.

Lemma put_line_loads_witness :
  run_line (fun _ => Ok 0) (fun _ => Some ["Fox"]) " PUT Fox"
    {| H_map := cat_dog; H_allocated := true; cout := [] |}
  = Ok {| H_map := {| HashCodeMethod := simple; n := 5;
                      table := [["dog"]; ["cat"]; []; ["fox"]; []];
                      inserts := [1; 1; 0; 1; 0] |};
          H_allocated := true;
          cout := [text " PUT Fox"; endl] |}.
Proof.
  destruct (put_line_loads (fun _ => Ok 0) (fun _ => Some ["Fox"]) " PUT Fox" "PUT" [""]
              ["Fox"] {| H_map := cat_dog; H_allocated := true; cout := [] |})
    as [H1 _].
  - reflexivity.
  - apply Forall_cons_2; [reflexivity | apply Forall_nil_2].
  - reflexivity.
  - exact H1.
Defined.

(** X20.  A line does nothing but get echoed when it has no token that
    survives trimming (an empty line, spaces, tabs), or when the first such
    token, in lower case, is none of the ten command names: the table is as
    before whatever tokens follow, and no message is written. *)
Theorem other_lines_only_echo (atoi : string -> result Z)
    (files : string -> option (list string)) (line : string) (p : process) :
  (Forall (λ t, rtrim t = "") (split_line line) ->
   run_line atoi files line p = Ok (say p [text line; endl]))
  /\ (forall blanks cmd words,
        split_line line = blanks ++ cmd :: words ->
        Forall (λ t, rtrim t = "") blanks ->
        rtrim cmd <> "" ->
        lowercase (rtrim cmd) ∉ command_names ->
        run_line atoi files line p = Ok (say p [text line; endl])).
Proof.
  split.
  - intros Hblanks. unfold run_line. by rewrite blank_tokens.
  - intros blanks cmd words Hsplit Hblanks Hne Hout.
    assert (Hcmd : lowercase (rtrim cmd) <> "") by (by intros ?%lowercase_empty).
    unfold run_line. rewrite Hsplit, token_loop_skip, token_loop_command by done.
    destruct (String.eqb_spec (lowercase (rtrim cmd)) "check") as [Heq | _].
    { exfalso. apply Hout. rewrite Heq. unfold command_names.
      repeat first [by apply list_elem_of_here | apply list_elem_of_further]. }
    rewrite unknown_words by done. simpl. by apply after_tokens_unknown.
Qed.

Lemma other_lines_only_echo_witness :
  run_line (fun _ => Ok 0) (fun _ => None) "insert dog"
    {| H_map := cat_dog; H_allocated := true; cout := [] |}
  = Ok {| H_map := cat_dog; H_allocated := true; cout := [text "insert dog"; endl] |}.
Proof.
  apply (proj2 (other_lines_only_echo (fun _ => Ok 0) (fun _ => None) "insert dog"
                  {| H_map := cat_dog; H_allocated := true; cout := [] |})
           [] "insert" ["dog"]).
  - reflexivity.
  - apply Forall_nil_2.
  - vm_compute. discriminate.
  - change (lowercase (rtrim "insert")) with "insert". unfold command_names.
    rewrite !not_elem_of_cons. repeat split; try discriminate. apply not_elem_of_nil.
Defined.

(** X21.  The tokens of a line are its pieces between single spaces: no
    token holds a space, the tokens joined by single spaces give the line
    back, up to one space at its end that starts no token, and only the
    empty line has no token (two spaces in a row give an empty token). *)
Theorem split_line_pieces (line : string) :
  (forall token, token ∈ split_line line -> " "%char ∉ chars token)
  /\ (chars line = joined (split_line line)
      \/ chars line = joined (split_line line) ++ [" "%char])
  /\ (split_line line = [] <-> line = "").
Proof.
  split; [| split].
  - intros token. apply tokens_of_no_space, not_elem_of_nil.
  - apply (tokens_of_joined (chars line) []).
  - split.
    + intros [Hcs _]%tokens_of_nil. by destruct line.
    + by intros ->.
Qed.

(** ** A whole session *)

Section Session.

Lemma put_only_adds (h h1 : HashMap) (key k : string) :
  put h key = Ok h1 -> stored h1 k -> stored h k \/ k = key.
Proof.
  intros [[-> _] | (i & bucket & count & -> & _ & _ & Hb & _)]%put_Ok_inv; [by left |].
  intros (j & l & Hl & Hin). destruct (decide (j = Z.to_nat i)) as [-> | Hj].
  - rewrite (table_appended_here h i bucket count key) in Hl by done. injection Hl as <-.
    apply elem_of_app in Hin as [Hin | Hin%list_elem_of_singleton]; [left | by right].
    by exists (Z.to_nat i), bucket.
  - left. exists j, l. split; [| done].
    by rewrite (table_appended_other h i bucket count key) in Hl.
Qed.

Lemma put_all_only_adds (keys : list string) (g g' : HashMap) (k : string) :
  put_all keys g = Ok g' -> stored g' k -> stored g k \/ k ∈ keys.
Proof.
  revert g. induction keys as [| key rest IH]; intros g; simpl.
  - intros [= <-]. by left.
  - destruct (put g key) as [g1 |] eqn:Hput; [simpl | discriminate].
    intros Hrest Hs. destruct (IH g1 Hrest Hs) as [Hs1 | Hin].
    + destruct (put_only_adds g g1 key k Hput Hs1) as [Hg | ->]; [by left | right].
      apply list_elem_of_here.
    + right. by apply list_elem_of_further.
Qed.

Lemma length_lowercase (s : string) : String.length (lowercase s) = String.length s.
Proof. induction s as [| c s IH]; simpl; [done | by rewrite IH]. Qed.

Lemma length_rtrim (s : string) : (String.length (rtrim s) <= String.length s)%nat.
Proof.
  rewrite <- !length_chars. unfold rtrim. rewrite chars_of_list, length_take. lia.
Qed.

Lemma length_normalize (s : string) : (String.length (normalize s) <= String.length s)%nat.
Proof.
  unfold normalize. etrans; [apply length_rtrim |]. by rewrite length_lowercase.
Qed.

Lemma destructor_wf (h : HashMap) : wf h -> destructor h = Ok tt.
Proof.
  intros [Ht _]. unfold destructor, deleteTable. simpl.
  destruct (Z.ltb_spec (Z.of_nat (length (table h))) (n h)); [lia | done].
Qed.

Lemma first_resize (s : Z) :
  0 <= s -> resizeTable_deleting false empty_map s = Ok (fresh_table simple s).
Proof.
  intros Hs. unfold resizeTable_deleting, resizeTable.
  destruct (Z.ltb_spec s 0); [lia | done].
Qed.

(** The table after the dictionary went in, from a fresh one. *)
Lemma dictionary_loaded (s : Z) (dictionary : list string) :
  0 < s ->
  (forall w, w ∈ dictionary -> Z.of_nat (String.length w) <= 1369568) ->
  exists h,
    load dictionary (fresh_table simple s) = Ok h
    /\ wf h /\ placed h /\ n h = s /\ HashCodeMethod h = simple
    /\ forall k, stored h k <-> k ∈ normalize <$> dictionary.
Proof.
  intros Hs Hlen. rewrite load_put_all.
  assert (Hwf : wf (fresh_table simple s)) by (apply wf_fresh; lia).
  destruct (put_all_returns (map normalize dictionary) (fresh_table simple s)) as [h Hh].
  { done. }
  { intros key (w & -> & Hw)%list_elem_of_fmap. apply hash_valid_simple; [done | simpl; lia |].
    pose proof (length_normalize w). specialize (Hlen w Hw). lia. }
  exists h. split; [done |].
  destruct (put_all_shape _ _ _ Hh) as (Hn & Hm & Hwf').
  split; [by apply Hwf' |]. split.
  { by apply (put_all_keeps placed (fun g key g' Hg Hput => put_placed g g' key Hg Hput)
                _ _ _ (placed_fresh simple s) Hh). }
  split; [done |]. split; [done |].
  intros k. split.
  - intros Hk. destruct (put_all_only_adds _ _ _ k Hh Hk) as [Hf | Hin]; [| done].
    by apply fresh_stores_nothing in Hf.
  - intros Hk. by apply (put_all_stores _ _ _ Hh).
Qed.

End Session.

(** X22.  The program as a spell checker.  For an input file of three
    lines, "resize" with a positive size, "put" with the words of a
    dictionary and "check" with the words of a text, [main] returns and
    writes the three lines back and, after "misspelled:", exactly those
    words of the text that, trimmed and in lower case, are not among the
    words of the dictionary treated alike, in the order of the text, each
    after a tab.  (No word being longer than 1369568 characters, the Simple
    hash code of the constructor's method does not overflow.) *)
Theorem spell_check_session (atoi : string -> result Z) (files : string -> option (list string))
    (resize_line put_line check_line c1 token c2 c3 : string) (s : Z)
    (dictionary words : list string) :
  files "input.txt" = Some [resize_line; put_line; check_line] ->
  split_line resize_line = [c1; token] -> lowercase (rtrim c1) = "resize" ->
  atoi (rtrim token) = Ok s -> 0 < s <= Int32.INT_MAX ->
  split_line put_line = c2 :: dictionary -> lowercase (rtrim c2) = "put" ->
  split_line check_line = c3 :: words -> lowercase (rtrim c3) = "check" ->
  (forall w, w ∈ dictionary ++ words -> Z.of_nat (String.length w) <= 1369568) ->
  main atoi files
  = Ok ([text resize_line; endl; text put_line; endl; text check_line; endl;
         text "misspelled:"]
        ++ flat_map (λ w, [text tab; text w])
             (filter (λ w, w ∉ normalize <$> dictionary) (normalize <$> words))
        ++ [endl]).
Proof.
  intros Hfile Hl1 Hc1 Hatoi Hs Hl2 Hc2 Hl3 Hc3 Hlen.
  destruct (dictionary_loaded s dictionary) as (h & Hload & Hwf & Hp & Hn & Hm & Hkeys).
  { lia. }
  { intros w Hw. apply Hlen, elem_of_app. by left. }
  unfold main, loadFile. rewrite Hfile. unfold run_lines.
  rewrite (run_resize_line atoi files resize_line c1 token s) by done.
  simpl H_allocated. simpl H_map. rewrite first_resize by lia. simpl bind.
  rewrite (run_put_line atoi files put_line c2 [] dictionary) by done.
  simpl H_map. rewrite Hload. simpl bind.
  rewrite (run_check_line atoi files check_line c3 [] words); try done.
  2:{ intros w Hw. simpl H_map. apply hash_valid_simple; [done | lia |].
      pose proof (length_normalize w).
      assert (Z.of_nat (String.length w) <= 1369568); [| lia].
      apply Hlen, elem_of_app. by right. }
  simpl. rewrite destructor_wf by done. simpl.
  assert (Hmiss : misspelled h words
                  = filter (λ w, w ∉ normalize <$> dictionary) (normalize <$> words)).
  { unfold misspelled. apply list_filter_iff.
    intros w. by rewrite <- Hkeys, stored_concat. }
  by rewrite Hmiss.
Qed.

Lemma spell_check_session_witness :
  main (fun _ => Ok 5)
       (fun _ => Some ["resize 5"; "put cat dog"; "check dog emu CAT"])
  = Ok [text "resize 5"; endl; text "put cat dog"; endl; text "check dog emu CAT"; endl;
        text "misspelled:"; text tab; text "emu"; endl].
Proof.
  apply (spell_check_session (fun _ => Ok 5)
           (fun _ => Some ["resize 5"; "put cat dog"; "check dog emu CAT"])
           "resize 5" "put cat dog" "check dog emu CAT" "resize" "5" "put" "check" 5
           ["cat"; "dog"] ["dog"; "emu"; "CAT"]); try reflexivity.
  - vm_compute. split; [reflexivity | discriminate].
  - intros w Hw. rewrite !elem_of_app, !elem_of_cons in Hw.
    destruct Hw as [[-> | [-> | Hw]] | [-> | [-> | [-> | Hw]]]];
      try (by apply elem_of_nil in Hw); vm_compute; discriminate.
Defined.
